(** * RadixEngine: the world lifecycle and frame loop of [radix::BaseGame]

    A shallow embedding of [source/BaseGame.cpp].  The object is a record of
    its fields; every member function is a function on that record.  Calls
    into collaborators whose code lives elsewhere (window, renderer, sound,
    the virtual lifecycle hooks, the [World] callbacks) are recorded, in call
    order, in a trace kept inside the record, each entry together with the
    world registry as it stood at the moment of the call. *)

From Stdlib Require Import ZArith Floats.SpecFloat.
From stdpp Require Import gmap strings list fin_maps.

Local Open Scope Z_scope.

(** ** Machine numbers *)

Module Num.

(** C [float] is IEEE 754 binary32: 24 bits of precision, emax 128. *)
Definition prec : Z := 24.
Definition emax : Z := 128.

Definition float : Type := spec_float.

(** Conversion of an [int] to [float] (round to nearest even). *)
Definition of_int (z : Z) : float := binary_normalize prec emax z 0 false.

Definition fadd (x y : float) : float := SFadd prec emax x y.
Definition fdiv (x y : float) : float := SFdiv prec emax x y.

(** [unsigned int] arithmetic is arithmetic modulo 2^32. *)
Definition wrap32 (z : Z) : Z := z mod 2^32.

(** Conversion of an [unsigned int] to [int]: the value modulo 2^32 that
    lies in the range of [int] (two's complement). *)
Definition to_int (z : Z) : Z :=
  let u := wrap32 z in if u <? 2^31 then u else u - 2^32.

End Num.

(** ** Collaborator data, as far as [BaseGame] reads or writes it *)

Record Vector3f := mkVector3f { vx : Num.float; vy : Num.float; vz : Num.float }.

(** [Vector3f::operator+]: componentwise sum. *)
Definition vadd (a b : Vector3f) : Vector3f :=
  mkVector3f (Num.fadd (vx a) (vx b)) (Num.fadd (vy a) (vy b)) (Num.fadd (vz a) (vz b)).

Record Quaternion := mkQuaternion
  { qx : Num.float; qy : Num.float; qz : Num.float; qw : Num.float }.

(** [entities::Player], through the three getters [prepareCamera] uses. *)
Record Player := mkPlayer
  { getPosition : Vector3f;
    getScale : Vector3f;
    getHeadOrientation : Quaternion }.

(** Modelled from the spec: [Camera], defined outside this file, through the
    four setters [prepareCamera] uses.  The spec reads the camera back after
    render as what was set ("camera position after render equals ..."), so
    each setter stores its argument. *)
Record Camera := mkCamera
  { perspective : bool;
    aspect : Num.float;
    cam_position : Vector3f;
    cam_orientation : Quaternion }.

Definition setPerspective (c : Camera) : Camera :=
  mkCamera true (aspect c) (cam_position c) (cam_orientation c).
Definition setAspect (a : Num.float) (c : Camera) : Camera :=
  mkCamera (perspective c) a (cam_position c) (cam_orientation c).
Definition setPosition (p : Vector3f) (c : Camera) : Camera :=
  mkCamera (perspective c) (aspect c) p (cam_orientation c).
Definition setOrientation (q : Quaternion) (c : Camera) : Camera :=
  mkCamera (perspective c) (aspect c) (cam_position c) q.

Record Config := mkConfig
  { isProfilerEnabled : bool;
    isConsoleEnabled : bool;
    getCursorVisibility : bool;
    getMap : string;
    getMapPath : string }.

(** The two simulations [createWorld] registers. *)
Inductive Simulation := SimPlayer | SimPhysics.

(** [World].  [world_id] stands for the identity (address) of the object. *)
Record World := mkWorld
  { world_id : nat;
    camera : Camera;
    getPlayer : Player;
    simulations : list Simulation;
    world_config : option Config }.

Definition with_camera (c : Camera) (w : World) : World :=
  mkWorld (world_id w) c (getPlayer w) (simulations w) (world_config w).

(** [World::setConfig], defined outside this file: the world keeps the
    configuration it is given. *)
Definition setConfig (c : Config) (w : World) : World :=
  mkWorld (world_id w) (camera w) (getPlayer w) (simulations w) (Some c).

(** Modelled from the spec: [SimulationManager::Transaction], declared and
    defined outside this file.  Additions are buffered in registration order
    and appended to the registry as a unit when the transaction's scope
    ends. *)
Record Transaction := mkTransaction { pending : list Simulation }.

Definition transact (w : World) : Transaction := mkTransaction [].
Definition addSimulation (s : Simulation) (t : Transaction) : Transaction :=
  mkTransaction (pending t ++ [s]).
Definition commit (t : Transaction) (w : World) : World :=
  mkWorld (world_id w) (camera w) (getPlayer w)
          (simulations w ++ pending t) (world_config w).

(** [Renderer]: the world it was constructed on, and what has been done to
    it since. *)
Record Renderer := mkRenderer
  { renderer_world : nat;
    has_viewport : bool;
    initialised : bool }.

(** [InputManager]: how many times [init] ran. *)
Record InputManager := mkInputManager { init_count : nat }.

(** [Window], through [getSize]. *)
Record Window := mkWindow { viewportWidth : Z; viewportHeight : Z }.

(** [TimeDelta::msec], defined outside this file: a duration given in
    milliseconds. *)
Inductive TimeDelta := msec (ms : Z).

(** ** The game object *)

(** Every call the file makes into code that lives elsewhere.  World
    arguments are given by [world_id]. *)
Inductive Event :=
| onPreStopWorld
| World_onStop (w : nat)
| onPostStopWorld
| onPreDestroyWorld (w : nat)
| World_onDestroy (w : nat)
| onPostDestroyWorld (w : nat)
| Renderer_new (w : nat)
| Renderer_setViewport
| Renderer_init
| InputManager_init
| onPreStartWorld
| World_onStart (w : nat)
| onPostStartWorld
| onPreCreateWorld (w : nat)
| World_setConfig (w : nat)
| World_onCreate (w : nat)
| Transaction_open (w : nat)
| Transaction_add (w : nat) (s : Simulation)
| Transaction_commit (w : nat)
| World_initPlayer (w : nat)
| onPostCreateWorld (w : nat)
| Window_processEvents
| SDL_GetTicks_returned (t : Z)
| SoundManager_update (w : nat)
| World_update (w : nat) (dt : TimeDelta)
| Window_getSize
| Renderer_render
| ImguiRenderer_render
| Screens_clear
| Fps_countCycle
| Window_swapBuffers
| deferred_called (task : nat)
| Window_close
| Chai_puts (s : string).

(** What a deferred closure does when it is called: it may change the
    world it reaches through the game, and it either returns or throws.
    Closures that call back into the queue while it is being walked are
    outside the model. *)
Inductive TaskResult :=
| Returned (w : option World)
| Raised (w : option World).

(** [std::function<void()>], tagged with a number so that calls can be told
    apart in the trace. *)
Record Task := mkTask
  { task_id : nat;
    task_run : option World -> TaskResult }.

Record ImguiRenderer := mkImguiRenderer { imgui_world : nat }.

(** The fields of [BaseGame] that the member functions below touch.  The
    header declaring them is not part of the sources; each field has the type
    its uses in [BaseGame.cpp] call for: [world], [renderer], [imguiRenderer]
    and [inputManager] are tested and dereferenced like [unique_ptr]s (so
    they may be empty), [otherWorlds] maps names to the [unique_ptr<World>]
    that [setWorld] takes, the three timestamps hold what [SDL_GetTicks]
    returns, a [Uint32]. *)
Record BaseGame := mkBaseGame
  { window : Window;
    config : Config;
    world : option World;                         (* std::unique_ptr<World> *)
    otherWorlds : gmap string (option World);     (* name -> std::unique_ptr<World> *)
    renderer : option Renderer;
    imguiRenderer : option ImguiRenderer;
    inputManager : option InputManager;
    currentTime : Z;
    lastUpdate : Z;
    lastRender : Z;
    closed : bool;
    postCycleDeferred : list Task;
    (* the environment: what the n-th call of SDL_GetTicks returns, and how
       many calls there have been *)
    sdl_clock : nat -> Z;
    sdl_polls : nat;
    (* calls made so far, each with the registry as it stood then *)
    trace : list (Event * gmap string (option World)) }.

Definition set_world (v : option World) (g : BaseGame) : BaseGame :=
  mkBaseGame (window g) (config g) v (otherWorlds g) (renderer g)
    (imguiRenderer g) (inputManager g) (currentTime g) (lastUpdate g)
    (lastRender g) (closed g) (postCycleDeferred g) (sdl_clock g)
    (sdl_polls g) (trace g).

Definition set_otherWorlds (v : gmap string (option World)) (g : BaseGame) : BaseGame :=
  mkBaseGame (window g) (config g) (world g) v (renderer g)
    (imguiRenderer g) (inputManager g) (currentTime g) (lastUpdate g)
    (lastRender g) (closed g) (postCycleDeferred g) (sdl_clock g)
    (sdl_polls g) (trace g).

Definition set_renderer (v : option Renderer) (g : BaseGame) : BaseGame :=
  mkBaseGame (window g) (config g) (world g) (otherWorlds g) v
    (imguiRenderer g) (inputManager g) (currentTime g) (lastUpdate g)
    (lastRender g) (closed g) (postCycleDeferred g) (sdl_clock g)
    (sdl_polls g) (trace g).

Definition set_inputManager (v : option InputManager) (g : BaseGame) : BaseGame :=
  mkBaseGame (window g) (config g) (world g) (otherWorlds g) (renderer g)
    (imguiRenderer g) v (currentTime g) (lastUpdate g)
    (lastRender g) (closed g) (postCycleDeferred g) (sdl_clock g)
    (sdl_polls g) (trace g).

Definition set_currentTime (v : Z) (g : BaseGame) : BaseGame :=
  mkBaseGame (window g) (config g) (world g) (otherWorlds g) (renderer g)
    (imguiRenderer g) (inputManager g) v (lastUpdate g)
    (lastRender g) (closed g) (postCycleDeferred g) (sdl_clock g)
    (sdl_polls g) (trace g).

Definition set_lastUpdate (v : Z) (g : BaseGame) : BaseGame :=
  mkBaseGame (window g) (config g) (world g) (otherWorlds g) (renderer g)
    (imguiRenderer g) (inputManager g) (currentTime g) v
    (lastRender g) (closed g) (postCycleDeferred g) (sdl_clock g)
    (sdl_polls g) (trace g).

Definition set_lastRender (v : Z) (g : BaseGame) : BaseGame :=
  mkBaseGame (window g) (config g) (world g) (otherWorlds g) (renderer g)
    (imguiRenderer g) (inputManager g) (currentTime g) (lastUpdate g)
    v (closed g) (postCycleDeferred g) (sdl_clock g)
    (sdl_polls g) (trace g).

Definition set_closed (v : bool) (g : BaseGame) : BaseGame :=
  mkBaseGame (window g) (config g) (world g) (otherWorlds g) (renderer g)
    (imguiRenderer g) (inputManager g) (currentTime g) (lastUpdate g)
    (lastRender g) v (postCycleDeferred g) (sdl_clock g)
    (sdl_polls g) (trace g).

Definition set_postCycleDeferred (v : list Task) (g : BaseGame) : BaseGame :=
  mkBaseGame (window g) (config g) (world g) (otherWorlds g) (renderer g)
    (imguiRenderer g) (inputManager g) (currentTime g) (lastUpdate g)
    (lastRender g) (closed g) v (sdl_clock g)
    (sdl_polls g) (trace g).

Definition set_sdl_polls (v : nat) (g : BaseGame) : BaseGame :=
  mkBaseGame (window g) (config g) (world g) (otherWorlds g) (renderer g)
    (imguiRenderer g) (inputManager g) (currentTime g) (lastUpdate g)
    (lastRender g) (closed g) (postCycleDeferred g) (sdl_clock g)
    v (trace g).

Definition set_trace (v : list (Event * gmap string (option World))) (g : BaseGame) : BaseGame :=
  mkBaseGame (window g) (config g) (world g) (otherWorlds g) (renderer g)
    (imguiRenderer g) (inputManager g) (currentTime g) (lastUpdate g)
    (lastRender g) (closed g) (postCycleDeferred g) (sdl_clock g)
    (sdl_polls g) v.

(** Record a call. *)
Definition emit (e : Event) (g : BaseGame) : BaseGame :=
  set_trace (trace g ++ [(e, otherWorlds g)]) g.

(** The calls alone, without the registry snapshots. *)
Definition events (g : BaseGame) : list Event := (trace g).*1.

(** ** Outcomes of a member function *)

Inductive Exn :=
| out_of_range (what : string)
| task_exception (task : nat).

(** A call returns, or leaves through an exception (the object is then in
    the state it had at the [throw]), or has no defined behaviour (a member
    call through an empty [unique_ptr]). *)
Inductive result :=
| Ok (g : BaseGame)
| Throw (e : Exn) (g : BaseGame)
| Undefined.

Definition bind (r : result) (k : BaseGame -> result) : result :=
  match r with
  | Ok g => k g
  | Throw e g => Throw e g
  | Undefined => Undefined
  end.

Notation "r >>= k" := (bind r k) (at level 50, left associativity).

(** The object as a call leaves it; [g] when nothing can be said. *)
Definition after (r : result) (g : BaseGame) : BaseGame :=
  match r with
  | Ok g' => g'
  | Throw _ g' => g'
  | Undefined => g
  end.

(** ** Member functions of [BaseGame] *)

(** [std::string helloWorld(const std::string &t_name)]. *)
Definition helloWorld (t_name : string) : string :=
  ("Hello " +:+ t_name +:+ "!")%string.

Definition isRunning (g : BaseGame) : bool := negb (closed g).

Definition getWorld (g : BaseGame) : option World := world g.

Definition getConfig (g : BaseGame) : Config := config g.

Definition close (g : BaseGame) : BaseGame := set_closed true g.

(** The argument of [setWorld] is an rvalue reference to a [unique_ptr]: a
    temporary of the caller, or the slot of a registry entry.  The pointer is
    read, and the place it is read from emptied, only by the move assignment
    inside [setWorld]. *)
Inductive WorldRef :=
| Temporary (p : option World)
| RegistrySlot (name : string).

Definition deref (r : WorldRef) (g : BaseGame) : option World :=
  match r with
  | Temporary p => p
  | RegistrySlot name => default None (otherWorlds g !! name)
  end.

(** A moved-from [unique_ptr] is empty. *)
Definition moved_from (r : WorldRef) (g : BaseGame) : BaseGame :=
  match r with
  | Temporary _ => g
  | RegistrySlot name =>
      set_otherWorlds (alter (fun _ => None) name (otherWorlds g)) g
  end.

(** The first [if (world)] block of [setWorld]. *)
Definition stopAndDestroy (g : BaseGame) : BaseGame :=
  match world g with
  | Some w =>
      let g := emit onPreStopWorld g in
      let g := emit (World_onStop (world_id w)) g in
      let g := emit onPostStopWorld g in
      let g := emit (onPreDestroyWorld (world_id w)) g in
      let g := emit (World_onDestroy (world_id w)) g in
      emit (onPostDestroyWorld (world_id w)) g
  | None => g
  end.

(** [world = std::move(newWorld)]. *)
Definition takeOwnership (newWorld : WorldRef) (g : BaseGame) : BaseGame :=
  set_world (deref newWorld g) (moved_from newWorld g).

(** The second [if (world)] block of [setWorld]. *)
Definition rebuildAndStart (g : BaseGame) : result :=
  match world g with
  | Some w =>
      let g := set_renderer (Some (mkRenderer (world_id w) false false)) g in
      let g := emit (Renderer_new (world_id w)) g in
      let g := set_renderer (Some (mkRenderer (world_id w) true false)) g in
      let g := emit Renderer_setViewport g in
      let g := set_renderer (Some (mkRenderer (world_id w) true true)) g in
      let g := emit Renderer_init g in
      match inputManager g with
      | Some im =>
          let g := set_inputManager (Some (mkInputManager (S (init_count im)))) g in
          let g := emit InputManager_init g in
          let g := emit onPreStartWorld g in
          let g := emit (World_onStart (world_id w)) g in
          Ok (emit onPostStartWorld g)
      | None => Undefined
      end
  | None => Ok g
  end.

Definition setWorld (newWorld : WorldRef) (g : BaseGame) : result :=
  rebuildAndStart (takeOwnership newWorld (stopAndDestroy g)).

Definition switchToOtherWorld (name : string) (g : BaseGame) : result :=
  match otherWorlds g !! name with
  | None => Throw (out_of_range "No other world by this name") g
  | Some _ =>
      setWorld (RegistrySlot name) g >>= fun g =>
      Ok (set_otherWorlds (delete name (otherWorlds g)) g)
  end.

Definition clearOtherWorldList (g : BaseGame) : BaseGame :=
  set_otherWorlds ∅ g.

Definition preCycle (g : BaseGame) : BaseGame := emit Window_processEvents g.

(** [SDL_GetTicks]: a [Uint32] read from the environment. *)
Definition SDL_GetTicks (g : BaseGame) : Z * BaseGame :=
  let t := Num.wrap32 (sdl_clock g (sdl_polls g)) in
  (t, emit (SDL_GetTicks_returned t) (set_sdl_polls (S (sdl_polls g)) g)).

(** The timestamps are unsigned 32-bit values: their difference is taken
    modulo 2^32, and converted to [int] when it is stored in
    [int elapsedTime]. *)
Definition update (g : BaseGame) : result :=
  let '(now, g) := SDL_GetTicks g in
  let g := set_currentTime now g in
  let elapsedTime := Num.to_int (currentTime g - lastUpdate g) in
  match world g with
  | Some w =>
      let g := emit (SoundManager_update (world_id w)) g in
      let g := emit (World_update (world_id w) (msec elapsedTime)) g in
      Ok (set_lastUpdate (currentTime g) g)
  | None => Undefined
  end.

(** [deferred()] for one element of the queue. *)
Definition call (t : Task) (g : BaseGame) : result :=
  let g := emit (deferred_called (task_id t)) g in
  match task_run t (world g) with
  | Returned w => Ok (set_world w g)
  | Raised w => Throw (task_exception (task_id t)) (set_world w g)
  end.

(** The range-for of [postCycle], over the elements still to visit. *)
Fixpoint callAll (ts : list Task) (g : BaseGame) : result :=
  match ts with
  | [] => Ok g
  | t :: ts => call t g >>= callAll ts
  end.

Definition postCycle (g : BaseGame) : result :=
  if (0 <? length (postCycleDeferred g))%nat then
    callAll (postCycleDeferred g) g >>= fun g =>
    Ok (set_postCycleDeferred [] g)
  else Ok g.

Definition deferPostCycle (deferred : Task) (g : BaseGame) : BaseGame :=
  set_postCycleDeferred (postCycleDeferred g ++ [deferred]) g.

Definition processInput (g : BaseGame) : BaseGame := g.
Definition initHook (g : BaseGame) : BaseGame := g.
Definition removeHook (g : BaseGame) : BaseGame := g.
Definition customTriggerHook (g : BaseGame) : BaseGame := g.

Definition cleanUp (g : BaseGame) : result :=
  let g := removeHook g in
  setWorld (Temporary None) g >>= fun g =>
  let g := emit Window_close g in
  Ok (emit (Chai_puts (helloWorld "Bob")) g).

Definition getSize (w : Window) : Z * Z := (viewportWidth w, viewportHeight w).

Definition prepareCamera (g : BaseGame) : result :=
  match world g with
  | Some w =>
      let c := setPerspective (camera w) in
      let '(viewportWidth, viewportHeight) := getSize (window g) in
      let g := emit Window_getSize g in
      let c := setAspect (Num.fdiv (Num.of_int viewportWidth)
                                   (Num.of_int viewportHeight)) c in
      let player := getPlayer w in
      let headOffset :=
        mkVector3f (Num.of_int 0)
                   (Num.fdiv (vy (getScale player)) (Num.of_int 2))
                   (Num.of_int 0) in
      let c := setPosition (vadd (getPosition player) headOffset) c in
      let c := setOrientation (getHeadOrientation player) c in
      Ok (set_world (Some (with_camera c w)) g)
  | None => Undefined
  end.

Definition render (g : BaseGame) : result :=
  prepareCamera g >>= fun g =>
  match renderer g, imguiRenderer g with
  | Some _, Some _ =>
      let g := emit Renderer_render g in
      let g := emit ImguiRenderer_render g in
      let g := emit Screens_clear g in
      let g := emit Fps_countCycle g in
      let g := emit Window_swapBuffers g in
      Ok (set_lastRender (currentTime g) g)
  | _, _ => Undefined
  end.

(** [createWorld] works on a world the game does not own yet: the world is
    an argument and a result of its own. *)
Definition createWorld (w : World) (g : BaseGame) : World * BaseGame :=
  let g := emit (onPreCreateWorld (world_id w)) g in
  let w := setConfig (config g) w in
  let g := emit (World_setConfig (world_id w)) g in
  let g := emit (World_onCreate (world_id w)) g in
  let simTransact := transact w in
  let g := emit (Transaction_open (world_id w)) g in
  let simTransact := addSimulation SimPlayer simTransact in
  let g := emit (Transaction_add (world_id w) SimPlayer) g in
  let simTransact := addSimulation SimPhysics simTransact in
  let g := emit (Transaction_add (world_id w) SimPhysics) g in
  let w := commit simTransact w in
  let g := emit (Transaction_commit (world_id w)) g in
  let g := emit (World_initPlayer (world_id w)) g in
  let g := emit (onPostCreateWorld (world_id w)) g in
  (w, g).

(** Several calls of [deferPostCycle], one after the other. *)
Definition deferAll (ts : list Task) (g : BaseGame) : BaseGame :=
  fold_left (fun g t => deferPostCycle t g) ts g.

(** Modelled from the spec: one iteration of the frame loop (section 4.2:
    preCycle, update, render, postCycle); the loop itself is written by the
    application, outside this file.  [in_events], [in_update] and
    [in_render] are the closures that event handlers, simulations and
    renderers pass to [deferPostCycle] while the phase runs. *)
Definition cycle (in_events in_update in_render : list Task) (g : BaseGame) : result :=
  let g := deferAll in_events (preCycle g) in
  update g >>= fun g =>
  let g := deferAll in_update g in
  render g >>= fun g =>
  let g := deferAll in_render g in
  postCycle g.

(** ** What the specification calls the phases of an activation *)

(** Retiring world [w]: the six calls of the first block of [setWorld]. *)
Definition retirement (w : World) : list Event :=
  [ onPreStopWorld; World_onStop (world_id w); onPostStopWorld;
    onPreDestroyWorld (world_id w); World_onDestroy (world_id w);
    onPostDestroyWorld (world_id w) ].

(** Wiring up and starting world [w]: the calls of the second block. *)
Definition rebuild (w : World) : list Event :=
  [ Renderer_new (world_id w); Renderer_setViewport; Renderer_init;
    InputManager_init ].

Definition start (w : World) : list Event :=
  [ onPreStartWorld; World_onStart (world_id w); onPostStartWorld ].

Definition retirement_of (p : option World) : list Event :=
  match p with Some w => retirement w | None => [] end.

Definition activation_of (p : option World) : list Event :=
  match p with Some w => rebuild w ++ start w | None => [] end.

(** Is [e] one of the three start calls? *)
Definition is_start (e : Event) : bool :=
  match e with
  | onPreStartWorld | World_onStart _ | onPostStartWorld => true
  | _ => false
  end.

(** The calls made since the trace had length [n]. *)
Definition since (n : nat) (g : BaseGame) : list (Event * gmap string (option World)) :=
  drop n (trace g).

(** Pair every call of a list with one registry snapshot. *)
Definition seen_with (reg : gmap string (option World)) (es : list Event)
  : list (Event * gmap string (option World)) :=
  (fun e => (e, reg)) <$> es.

(** A closure that returns normally whatever world it finds, and one that
    throws whatever world it finds. *)
Definition returns (t : Task) : Prop :=
  forall w, exists w', task_run t w = Returned w'.

Definition throws (t : Task) : Prop :=
  forall w, exists w', task_run t w = Raised w'.

Definition calls (ts : list Task) : list Event :=
  (fun t => deferred_called (task_id t)) <$> ts.

(** The calls of one [update] that polls [now] after a last update at
    [last], of one [render], and of [createWorld]. *)
Definition update_calls (w : World) (now last : Z) : list Event :=
  [ SDL_GetTicks_returned now; SoundManager_update (world_id w);
    World_update (world_id w) (msec (Num.to_int (now - last))) ].

Definition render_calls : list Event :=
  [ Window_getSize; Renderer_render; ImguiRenderer_render; Screens_clear;
    Fps_countCycle; Window_swapBuffers ].

Definition create_calls (w : World) : list Event :=
  [ onPreCreateWorld (world_id w); World_setConfig (world_id w);
    World_onCreate (world_id w); Transaction_open (world_id w);
    Transaction_add (world_id w) SimPlayer;
    Transaction_add (world_id w) SimPhysics;
    Transaction_commit (world_id w); World_initPlayer (world_id w);
    onPostCreateWorld (world_id w) ].

(** The calls of one loop iteration up to and including the render phase. *)
Definition frame_calls (w : World) (now last : Z) : list Event :=
  Window_processEvents :: update_calls w now last ++ render_calls.

(** The eye of a player: half its height above its pivot. *)
Definition headOffset (p : Player) : Vector3f :=
  mkVector3f (Num.of_int 0) (Num.fdiv (vy (getScale p)) (Num.of_int 2))
             (Num.of_int 0).

(** The World as [render] leaves it: [w] with the camera set from the player
    and from the window of [g]. *)
Definition rendered (g : BaseGame) (w : World) : World :=
  with_camera
    (mkCamera true
       (Num.fdiv (Num.of_int (viewportWidth (window g)))
                 (Num.of_int (viewportHeight (window g))))
       (vadd (getPosition (getPlayer w)) (headOffset (getPlayer w)))
       (getHeadOrientation (getPlayer w)))
    w.

(** The closures of [ts], called one after the other on what the previous
    one left of the world [w], all return: the result is the world the last
    one leaves.  [None] when one of them throws. *)
Fixpoint all_return (ts : list Task) (w : option World) : option (option World) :=
  match ts with
  | [] => Some w
  | t :: ts =>
      match task_run t w with
      | Returned w' => all_return ts w'
      | Raised _ => None
      end
  end.

(** ** A small game to evaluate the functions on *)

Module Sample.

Definition zero : Num.float := Num.of_int 0.
Definition origin : Vector3f := mkVector3f zero zero zero.
Definition upright : Quaternion := mkQuaternion zero zero zero (Num.of_int 1).
Definition cam : Camera := mkCamera false zero origin upright.

(** A player standing at (1, 2, 3), 3 units tall. *)
Definition hero : Player :=
  mkPlayer (mkVector3f (Num.of_int 1) (Num.of_int 2) (Num.of_int 3))
           (mkVector3f (Num.of_int 1) (Num.of_int 3) (Num.of_int 1))
           upright.

Definition lobby : World := mkWorld 1 cam hero [] None.
Definition cellar : World := mkWorld 2 cam hero [] None.

Definition cfg : Config := mkConfig false false false "" "".

(** The clock reads 2^31 ms (24.8 days after start) at every poll. *)
Definition late (n : nat) : Z := 2147483648.

(** [lobby] is active, [cellar] is cached; the last update was at 0 ms. *)
Definition game : BaseGame :=
  mkBaseGame (mkWindow 800 600) cfg (Some lobby)
    {[ "cellar"%string := Some cellar ]}
    (Some (mkRenderer 1 true true)) (Some (mkImguiRenderer 1))
    (Some (mkInputManager 1)) 0 0 0 false [] late 0 [].

(** The clock reads 16 ms at every poll. *)
Definition early (n : nat) : Z := 16.

Definition game16 : BaseGame :=
  mkBaseGame (mkWindow 800 600) cfg (Some lobby)
    {[ "cellar"%string := Some cellar ]}
    (Some (mkRenderer 1 true true)) (Some (mkImguiRenderer 1))
    (Some (mkInputManager 1)) 0 0 0 false [] early 0 [].

Definition quiet (id : nat) : Task := mkTask id Returned.
Definition faulty (id : nat) : Task := mkTask id Raised.

End Sample.

(** ** Start-up and shut-down

    [setup], the functions it calls and the destructor use a few more fields
    and make calls that the frame loop never makes.  They are modelled on a
    record that extends the game object; its log holds every call in order,
    those of the functions above included. *)

Definition set_imguiRenderer (v : option ImguiRenderer) (g : BaseGame) : BaseGame :=
  mkBaseGame (window g) (config g) (world g) (otherWorlds g) (renderer g)
    v (inputManager g) (currentTime g) (lastUpdate g)
    (lastRender g) (closed g) (postCycleDeferred g) (sdl_clock g)
    (sdl_polls g) (trace g).

Record ScreenRenderer := mkScreenRenderer { screen_world : nat }.

Inductive Call :=
| Core (e : Event)
| GameConsole_run
| SoundManager_init
| Window_create (title : string)
| Window_unlockMouse
| Window_lockMouse
| InputManager_new
| World_new (w : nat)
| MapLoader_load (w : nat) (path : string)
| Event_addObserverRaw (w : nat)
| ImguiRenderer_new (w : nat)
| Window_registerImgui
| ScreenRenderer_new (w : nat)
| Renderer_addRenderer
| postSetup_called
| Profiler_stopListen
| ScreenshotCallbackHolder_removeThis
| ImguiRenderer_shutdown
| Window_printScreenToFile (path : string).

(** The game object with the remaining fields: [windowTitle], [defaultMap]
    and [screenRenderer] are members, [dataDir] is what
    [Environment::getDataDir()] returns. *)
Record Game := mkGame
  { base : BaseGame;
    windowTitle : string;
    defaultMap : string;
    dataDir : string;
    screenRenderer : option ScreenRenderer;
    log : list Call }.

Definition set_base (v : BaseGame) (G : Game) : Game :=
  mkGame v (windowTitle G) (defaultMap G) (dataDir G) (screenRenderer G) (log G).

Definition set_screenRenderer (v : option ScreenRenderer) (G : Game) : Game :=
  mkGame (base G) (windowTitle G) (defaultMap G) (dataDir G) v (log G).

Definition set_log (v : list Call) (G : Game) : Game :=
  mkGame (base G) (windowTitle G) (defaultMap G) (dataDir G) (screenRenderer G) v.

Definition say (c : Call) (G : Game) : Game := set_log (log G ++ [c]) G.

(** The calls [b'] has in its trace beyond those of [b]. *)
Definition newer (b b' : BaseGame) : list Call :=
  Core <$> drop (length (trace b)) (events b').

(** Put back the game object after a member function of the first part ran
    on it, and copy the calls it made to the log. *)
Definition with_base (b' : BaseGame) (G : Game) : Game :=
  set_log (log G ++ newer (base G) b') (set_base b' G).

Inductive outcome :=
| Done (G : Game)
| Thrown (e : Exn) (G : Game)
| Unspecified.

Definition then_ (o : outcome) (k : Game -> outcome) : outcome :=
  match o with
  | Done G => k G
  | Thrown e G => Thrown e G
  | Unspecified => Unspecified
  end.

Definition getScreenRenderer (G : Game) : option ScreenRenderer := screenRenderer G.

Definition loadMap (targetWorld : World) (G : Game) : Game :=
  let map := getMap (config (base G)) in
  let mapPath := getMapPath (config (base G)) in
  if (0 <? String.length map)%nat then
    say (MapLoader_load (world_id targetWorld) (dataDir G +:+ map)) G
  else if (0 <? String.length mapPath)%nat then
    say (MapLoader_load (world_id targetWorld) mapPath) G
  else
    say (MapLoader_load (world_id targetWorld) (dataDir G +:+ defaultMap G)) G.

(** [std::string::c_str], as the callee reads it: the characters up to the
    first NUL. *)
Fixpoint c_str (s : string) : string :=
  match s with
  | EmptyString => EmptyString
  | String c s' =>
      if Ascii.eqb c Ascii.zero then EmptyString else String c (c_str s')
  end.

Definition createWindow (G : Game) : Game :=
  let G := say (Window_create (c_str (windowTitle G))) G in
  if getCursorVisibility (config (base G)) then say Window_unlockMouse G
  else say Window_lockMouse G.

(** SDL's scancode of the key G. *)
Definition SDL_SCANCODE_G : Z := 10.

(** The observer that [createScreenshotCallbackHolder] registers, called with
    the key of a key-released event. *)
Definition screenshotObserver (key : Z) (G : Game) : Game :=
  if key =? SDL_SCANCODE_G then
    say (Window_printScreenToFile (dataDir G +:+ "/screenshot.bmp")) G
  else G.

Definition createScreenshotCallbackHolder (G : Game) : outcome :=
  match world (base G) with
  | Some w => Done (say (Event_addObserverRaw (world_id w)) G)
  | None => Unspecified
  end.

(** [setup] from the point on where [this->world] is the moved [newWorld]. *)
Definition setup_wired (G : Game) : outcome :=
  then_ (createScreenshotCallbackHolder G) (fun G =>
  match world (base G), renderer (base G) with
  | Some w, Some _ =>
      let G := set_base (set_imguiRenderer
                           (Some (mkImguiRenderer (world_id w))) (base G)) G in
      let G := say (ImguiRenderer_new (world_id w)) G in
      let G := say Window_registerImgui G in
      let G := set_screenRenderer (Some (mkScreenRenderer (world_id w))) G in
      let G := say (ScreenRenderer_new (world_id w)) G in
      let G := say Renderer_addRenderer G in
      Done (say postSetup_called G)
  | _, _ => Unspecified
  end).

(** [setup] up to the call of [setWorld]; the result is the new world and
    the game.  [fresh] is the world as [World]'s constructor makes it. *)
Definition setup_world (fresh : World) (G : Game) : World * Game :=
  let G := if isConsoleEnabled (config (base G)) then say GameConsole_run G
           else G in
  let G := say SoundManager_init G in
  let G := createWindow G in
  let G := with_base (initHook (base G)) G in
  let G := with_base (customTriggerHook (base G)) G in
  let G := match inputManager (base G) with
           | None =>
               say InputManager_new
                 (set_base (set_inputManager (Some (mkInputManager 0)) (base G)) G)
           | Some _ => G
           end in
  let G := say (World_new (world_id fresh)) G in
  let '(newWorld, b) := createWorld fresh (base G) in
  let G := with_base b G in
  let G := set_base (set_lastRender 0 (set_lastUpdate 0 (base G))) G in
  let G := loadMap newWorld G in
  (newWorld, G).

Definition setup (fresh : World) (G : Game) : outcome :=
  let '(newWorld, G) := setup_world fresh G in
  match setWorld (Temporary (Some newWorld)) (base G) with
  | Ok b => setup_wired (with_base b G)
  | Throw e b => Thrown e (with_base b G)
  | Undefined => Unspecified
  end.

(** [~BaseGame]. *)
Definition destructor (G : Game) : outcome :=
  let G := if isProfilerEnabled (config (base G)) then say Profiler_stopListen G
           else G in
  let G := say ScreenshotCallbackHolder_removeThis G in
  match imguiRenderer (base G) with
  | Some _ => Done (say ImguiRenderer_shutdown G)
  | None => Unspecified
  end.

(** The path [loadMap] hands to the loader. *)
Definition map_path (G : Game) : string :=
  let c := config (base G) in
  if (0 <? String.length (getMap c))%nat then dataDir G +:+ getMap c
  else if (0 <? String.length (getMapPath c))%nat then getMapPath c
  else dataDir G +:+ defaultMap G.

(** The calls of [setup] on game [G] with fresh world [fresh], in order. *)
Definition setup_calls (fresh : World) (G : Game) : list Call :=
  (if isConsoleEnabled (config (base G)) then [GameConsole_run] else [])
  ++ [ SoundManager_init; Window_create (c_str (windowTitle G));
       if getCursorVisibility (config (base G)) then Window_unlockMouse
       else Window_lockMouse ]
  ++ (match inputManager (base G) with None => [InputManager_new] | Some _ => [] end)
  ++ [ World_new (world_id fresh) ]
  ++ (Core <$> create_calls fresh)
  ++ [ MapLoader_load (world_id fresh) (map_path G) ]
  ++ (Core <$> (retirement_of (world (base G)) ++ rebuild fresh ++ start fresh))
  ++ [ Event_addObserverRaw (world_id fresh); ImguiRenderer_new (world_id fresh);
       Window_registerImgui; ScreenRenderer_new (world_id fresh);
       Renderer_addRenderer; postSetup_called ].

(** [P] holds of the object as a call leaves it, whenever it leaves one. *)
Definition leaves (r : result) (P : BaseGame -> Prop) : Prop :=
  match r with
  | Ok g' => P g'
  | Throw _ g' => P g'
  | Undefined => True
  end.

(** Infinities and NaN: the [float]s that are not numbers. *)
Definition not_finite (x : Num.float) : Prop :=
  match x with
  | S754_infinity _ | S754_nan => True
  | _ => False
  end.

(** A game object as it is before [setup]: no world, no renderer, no input
    manager, timestamps not yet meaningful. *)
Module Boot.

Definition cfg : Config := mkConfig false true false "" "/home/me/test.xml".

Definition blank : BaseGame :=
  mkBaseGame (mkWindow 800 600) cfg None ∅ None None None 7 7 7 false []
    Sample.early 0 [].

Definition app : Game :=
  mkGame blank "Radix" "/maps/n1.xml" "/usr/share/radix" None [].

(** The sample game with its window shrunk to height 0. *)
Definition flat : BaseGame :=
  mkBaseGame (mkWindow 800 0) Sample.cfg (Some Sample.lobby) ∅
    (Some (mkRenderer 1 true true)) (Some (mkImguiRenderer 1))
    (Some (mkInputManager 1)) 0 0 0 false [] Sample.early 0 [].

(** The sample game just before the clock wraps: the last update was at
    2^32 - 6 ms, the next poll reads 16 ms. *)
Definition wrapping : BaseGame :=
  mkBaseGame (mkWindow 800 600) Sample.cfg (Some Sample.lobby) ∅
    (Some (mkRenderer 1 true true)) (Some (mkImguiRenderer 1))
    (Some (mkInputManager 1)) 4294967290 4294967290 4294967290 false []
    Sample.early 0 [].

(** A closure that throws when it finds no World, and one that leaves no
    World behind. *)
Definition picky (id : nat) : Task :=
  mkTask id (fun w => match w with Some _ => Returned w | None => Raised w end).
Definition wipe (id : nat) : Task := mkTask id (fun _ => Returned None).

(** A game whose window title has a NUL after the first five characters. *)
Definition nul_title : Game :=
  mkGame blank ("Radix" +:+ String Ascii.zero "Engine") "/maps/n1.xml"
    "/usr/share/radix" None [].

(** The sample game of the frame loop, wrapped. *)
Definition running : Game :=
  mkGame Sample.game16 "Radix" "/maps/n1.xml" "/usr/share/radix" None [].

End Boot.

(** ** Basic facts about the trace *)

(** Refute [e ∈ l] for an explicit list [l] none of whose elements has the
    head constructor of [e]. *)
Ltac not_listed :=
  rewrite ?elem_of_app, !elem_of_cons, ?elem_of_nil;
  let H := fresh in
  intros H; repeat (destruct H as [H | H]; [discriminate H |]);
  try discriminate H; exact H.

Lemma events_emit (e : Event) (g : BaseGame) :
  events (emit e g) = events g ++ [e].
Proof. unfold events, emit. cbn. by rewrite fmap_app. Qed.

Lemma seen_with_events reg es : (seen_with reg es).*1 = es.
Proof.
  unfold seen_with. rewrite <- list_fmap_compose.
  induction es as [|e es IH]; cbn; [done | by rewrite IH].
Qed.

Lemma seen_with_nil reg : seen_with reg [] = [].
Proof. reflexivity. Qed.

Lemma trace_events (g g' : BaseGame) l :
  trace g' = trace g ++ l -> events g' = events g ++ l.*1.
Proof. unfold events. intros ->. by rewrite fmap_app. Qed.

Lemma since_app (g g' : BaseGame) l :
  trace g' = trace g ++ l -> since (length (trace g)) g' = l.
Proof. unfold since. intros ->. by rewrite drop_app_length. Qed.

(** *** [stopAndDestroy] *)

Lemma stopAndDestroy_trace (g : BaseGame) :
  trace (stopAndDestroy g)
  = trace g ++ seen_with (otherWorlds g) (retirement_of (world g)).
Proof.
  unfold stopAndDestroy. destruct (world g) as [w|]; cbn.
  - by rewrite <- !app_assoc.
  - by rewrite app_nil_r.
Qed.

Lemma stopAndDestroy_frame (g : BaseGame) :
  world (stopAndDestroy g) = world g
  /\ otherWorlds (stopAndDestroy g) = otherWorlds g
  /\ renderer (stopAndDestroy g) = renderer g
  /\ imguiRenderer (stopAndDestroy g) = imguiRenderer g
  /\ inputManager (stopAndDestroy g) = inputManager g
  /\ postCycleDeferred (stopAndDestroy g) = postCycleDeferred g
  /\ currentTime (stopAndDestroy g) = currentTime g
  /\ lastUpdate (stopAndDestroy g) = lastUpdate g
  /\ lastRender (stopAndDestroy g) = lastRender g
  /\ closed (stopAndDestroy g) = closed g
  /\ sdl_polls (stopAndDestroy g) = sdl_polls g.
Proof.
  unfold stopAndDestroy. destruct (world g) eqn:E; cbn; repeat split; done.
Qed.

(** *** [takeOwnership] *)

Lemma takeOwnership_world r (g : BaseGame) :
  world (takeOwnership r g) = deref r g.
Proof. reflexivity. Qed.

Lemma takeOwnership_registry r (g : BaseGame) :
  otherWorlds (takeOwnership r g)
  = match r with
    | Temporary _ => otherWorlds g
    | RegistrySlot name => alter (fun _ => None) name (otherWorlds g)
    end.
Proof. by destruct r. Qed.

Lemma takeOwnership_frame r (g : BaseGame) :
  trace (takeOwnership r g) = trace g
  /\ renderer (takeOwnership r g) = renderer g
  /\ imguiRenderer (takeOwnership r g) = imguiRenderer g
  /\ inputManager (takeOwnership r g) = inputManager g.
Proof. by destruct r. Qed.

(** *** [rebuildAndStart] *)

Lemma rebuildAndStart_none (g : BaseGame) :
  world g = None -> rebuildAndStart g = Ok g.
Proof. unfold rebuildAndStart. by intros ->. Qed.

Lemma rebuildAndStart_some (g : BaseGame) w im :
  world g = Some w -> inputManager g = Some im ->
  exists g',
    rebuildAndStart g = Ok g'
    /\ trace g' = trace g ++ seen_with (otherWorlds g) (rebuild w ++ start w)
    /\ world g' = Some w
    /\ otherWorlds g' = otherWorlds g
    /\ renderer g' = Some (mkRenderer (world_id w) true true)
    /\ inputManager g' = Some (mkInputManager (S (init_count im)))
    /\ imguiRenderer g' = imguiRenderer g
    /\ postCycleDeferred g' = postCycleDeferred g.
Proof.
  intros Hw Him. unfold rebuildAndStart. rewrite Hw. cbn. rewrite Him.
  eexists. split; [reflexivity |]. cbn.
  repeat split; try done. by rewrite <- !app_assoc.
Qed.

Lemma rebuildAndStart_no_input (g : BaseGame) w :
  world g = Some w -> inputManager g = None -> rebuildAndStart g = Undefined.
Proof. intros Hw Him. unfold rebuildAndStart. rewrite Hw. cbn. by rewrite Him. Qed.

(** *** [setWorld] *)

(** The registry as [setWorld] leaves it: a slot that was moved from is
    empty, but still there. *)
Lemma setWorld_general (newWorld : WorldRef) (g : BaseGame) im :
  deref newWorld g = None \/ inputManager g = Some im ->
  exists g',
    setWorld newWorld g = Ok g'
    /\ trace g' = trace g
         ++ seen_with (otherWorlds g) (retirement_of (world g))
         ++ seen_with (otherWorlds (moved_from newWorld g))
                      (activation_of (deref newWorld g))
    /\ world g' = deref newWorld g
    /\ otherWorlds g' = otherWorlds (moved_from newWorld g)
    /\ imguiRenderer g' = imguiRenderer g
    /\ postCycleDeferred g' = postCycleDeferred g
    /\ match deref newWorld g with
       | Some w => renderer g' = Some (mkRenderer (world_id w) true true)
                   /\ inputManager g' = Some (mkInputManager (S (init_count im)))
       | None => renderer g' = renderer g /\ inputManager g' = inputManager g
       end.
Proof.
  intros Hin. unfold setWorld.
  pose proof (stopAndDestroy_trace g) as Htr.
  destruct (stopAndDestroy_frame g)
    as (Hw & Hreg & Hr & Hi & Him & Hq & _).
  set (g1 := stopAndDestroy g) in *.
  assert (Hd : deref newWorld g1 = deref newWorld g).
  { destruct newWorld; cbn; [done | by rewrite Hreg]. }
  assert (Hm : otherWorlds (takeOwnership newWorld g1)
               = otherWorlds (moved_from newWorld g)).
  { destruct newWorld; cbn; [done | by rewrite Hreg]. }
  destruct (takeOwnership_frame newWorld g1) as (Ht2 & Hr2 & Hi2 & Him2).
  assert (Hq2 : postCycleDeferred (takeOwnership newWorld g1)
                = postCycleDeferred g1) by by destruct newWorld.
  pose proof (takeOwnership_world newWorld g1) as Hw2.
  set (g2 := takeOwnership newWorld g1) in *.
  rewrite Hd in Hw2.
  destruct (deref newWorld g) as [w|] eqn:Hnew.
  - destruct Hin as [? | Hin]; [done |].
    destruct (rebuildAndStart_some g2 w im) as (g' & -> & Ht & ? & ? & ? & ? & ? & ?);
      [done | congruence |].
    exists g'. split; [done |].
    repeat split; try congruence.
    rewrite Ht, Ht2, Htr, Hm. by rewrite <- app_assoc.
  - rewrite (rebuildAndStart_none g2 Hw2).
    exists g2. split; [done |].
    repeat split; try congruence.
    rewrite Ht2, Htr. cbn. by rewrite app_nil_r.
Qed.

(** ** World lifecycle *)

(** C4.  When [setWorld] is called while a World is active, the old World is
    retired by the calls pre-stop hook, [onStop], post-stop hook, pre-destroy
    hook, [onDestroy], post-destroy hook, in that order, and when they are
    done nothing but the trace has changed: the world, the registry, the
    renderer and the input manager are still the old ones.  Only then is the
    new pointer taken; if it is not null, a Renderer bound to the new World is
    built (constructed, given the viewport, initialised), the InputManager is
    initialised once more, and pre-start hook, [onStart], post-start hook run,
    in that order. *)
Theorem setWorld_retires_then_starts
    (g : BaseGame) (old : World) (im : InputManager) (newWorld : WorldRef) :
  world g = Some old ->
  inputManager g = Some im ->
  events (stopAndDestroy g) = events g ++ retirement old
  /\ world (stopAndDestroy g) = Some old
  /\ otherWorlds (stopAndDestroy g) = otherWorlds g
  /\ renderer (stopAndDestroy g) = renderer g
  /\ inputManager (stopAndDestroy g) = Some im
  /\ exists g',
       setWorld newWorld g = Ok g'
       /\ world g' = deref newWorld g
       /\ match deref newWorld g with
          | Some w =>
              events g' = events g ++ retirement old ++ rebuild w ++ start w
              /\ renderer g' = Some (mkRenderer (world_id w) true true)
              /\ inputManager g' = Some (mkInputManager (S (init_count im)))
          | None =>
              events g' = events g ++ retirement old
              /\ renderer g' = renderer g
              /\ inputManager g' = Some im
          end.
Proof.
  intros Hw Him.
  destruct (stopAndDestroy_frame g) as (Hw1 & Hreg & Hr & _ & Him1 & _).
  split.
  { by rewrite (trace_events g _ _ (stopAndDestroy_trace g)),
       seen_with_events, Hw. }
  repeat (split; [congruence |]).
  destruct (setWorld_general newWorld g im (or_intror Him))
    as (g' & Hrun & Ht & Hw' & _ & _ & _ & Hfields).
  exists g'. repeat (split; [done |]).
  apply trace_events in Ht.
  rewrite fmap_app, !seen_with_events, Hw in Ht.
  destruct (deref newWorld g) as [w|]; cbn [retirement_of activation_of] in Ht.
  - destruct Hfields. by repeat split.
  - destruct Hfields. rewrite app_nil_r in Ht. repeat split; congruence.
Qed.

Lemma setWorld_retires_then_starts_witness :
  exists g',
    setWorld (RegistrySlot "cellar") Sample.game = Ok g'
    /\ world g' = Some Sample.cellar
    /\ events g'
       = [ onPreStopWorld; World_onStop 1; onPostStopWorld;
           onPreDestroyWorld 1; World_onDestroy 1; onPostDestroyWorld 1;
           Renderer_new 2; Renderer_setViewport; Renderer_init;
           InputManager_init;
           onPreStartWorld; World_onStart 2; onPostStartWorld ].
Proof.
  destruct (setWorld_retires_then_starts Sample.game Sample.lobby
              (mkInputManager 1) (RegistrySlot "cellar") eq_refl eq_refl)
    as (_ & _ & _ & _ & _ & g' & Hrun & Hw & Hrest).
  exists g'. split; [exact Hrun |]. split; [exact Hw |].
  exact (proj1 Hrest).
Defined.

(** C9.  [setWorld] with an empty pointer while a World is active runs the six
    retirement calls and nothing else, leaves [getWorld] null, and leaves the
    renderer and the input manager as they were; none of the start calls is
    made.  [cleanUp] goes through exactly this path before it closes the
    window. *)
Theorem setWorld_null_tears_down (g : BaseGame) (old : World) :
  world g = Some old ->
  exists g',
    setWorld (Temporary None) g = Ok g'
    /\ events g' = events g ++ retirement old
    /\ (forall e, e ∈ (since (length (trace g)) g').*1 -> is_start e = false)
    /\ getWorld g' = None
    /\ renderer g' = renderer g
    /\ inputManager g' = inputManager g
    /\ otherWorlds g' = otherWorlds g
    /\ cleanUp g
       = Ok (emit (Chai_puts "Hello Bob!") (emit Window_close g')).
Proof.
  intros Hw.
  destruct (setWorld_general (Temporary None) g (mkInputManager 0)
              (or_introl eq_refl))
    as (g' & Hrun & Ht & Hw' & Hreg & _ & _ & Hr & Him).
  cbn [deref activation_of moved_from] in Ht, Hw', Hreg.
  rewrite Hw in Ht. cbn [retirement_of] in Ht.
  rewrite seen_with_nil, app_nil_r in Ht.
  exists g'. split; [done |].
  split. { rewrite (trace_events _ _ _ Ht). by rewrite seen_with_events. }
  split.
  { rewrite (since_app _ _ _ Ht), seen_with_events. intros e He.
    unfold retirement in He. rewrite !elem_of_cons, elem_of_nil in He.
    by destruct He as [->|[->|[->|[->|[->|[->|[]]]]]]]. }
  repeat (split; [done |]).
  unfold cleanUp, removeHook. by rewrite Hrun.
Qed.

Lemma setWorld_null_tears_down_witness :
  exists g',
    setWorld (Temporary None) Sample.game = Ok g'
    /\ events g'
       = [ onPreStopWorld; World_onStop 1; onPostStopWorld;
           onPreDestroyWorld 1; World_onDestroy 1; onPostDestroyWorld 1 ]
    /\ getWorld g' = None
    /\ renderer g' = Some (mkRenderer 1 true true)
    /\ inputManager g' = Some (mkInputManager 1).
Proof.
  destruct (setWorld_null_tears_down Sample.game Sample.lobby eq_refl)
    as (g' & Hrun & He & _ & Hw & Hr & Him & _).
  exists g'. repeat split; assumption.
Defined.

(** *** [switchToOtherWorld] *)

Lemma switchToOtherWorld_found (g : BaseGame) (name : string) p im :
  otherWorlds g !! name = Some p ->
  p = None \/ inputManager g = Some im ->
  exists g',
    switchToOtherWorld name g = Ok g'
    /\ trace g' = trace g
         ++ seen_with (otherWorlds g) (retirement_of (world g))
         ++ seen_with (alter (fun _ => None) name (otherWorlds g))
                      (activation_of p)
    /\ world g' = p
    /\ otherWorlds g' = delete name (otherWorlds g).
Proof.
  intros Hname Hin. unfold switchToOtherWorld. rewrite Hname.
  assert (Hd : deref (RegistrySlot name) g = p).
  { cbn. by rewrite Hname. }
  destruct (setWorld_general (RegistrySlot name) g im)
    as (g1 & -> & Ht & Hw & Hreg & _); [by rewrite Hd |].
  rewrite Hd in Ht, Hw. cbn [moved_from] in Ht, Hreg. cbn in Hreg.
  eexists. split; [reflexivity |]. cbn.
  repeat split; try done.
  by rewrite Hreg, delete_alter_eq.
Qed.

Lemma elem_of_seen_with reg es (o : Event * gmap string (option World)) :
  o ∈ seen_with reg es -> o.2 = reg /\ o.1 ∈ es.
Proof.
  unfold seen_with. intros (e & -> & He)%list_elem_of_fmap. by split.
Qed.

(** C2.  For a name that is not in the registry, [switchToOtherWorld] throws
    [std::out_of_range] and the game is exactly as it was before the call:
    same registry, same active World, same everything else, and no call was
    made. *)
Theorem switchToOtherWorld_absent (g : BaseGame) (name : string) :
  otherWorlds g !! name = None ->
  switchToOtherWorld name g
  = Throw (out_of_range "No other world by this name") g.
Proof. intros Hname. unfold switchToOtherWorld. by rewrite Hname. Qed.

Lemma switchToOtherWorld_absent_witness :
  switchToOtherWorld "attic" Sample.game
  = Throw (out_of_range "No other world by this name") Sample.game.
Proof. apply (switchToOtherWorld_absent Sample.game "attic"). reflexivity. Defined.

(** C3.  For a name under which the registry holds a World,
    [switchToOtherWorld] returns with that entry removed from the registry
    and that World as the active one.  If a World was active before, its six
    retirement calls (among them [onStop] and [onDestroy]) all come before
    the new World's [onStart], and no [onStart] comes before them. *)
Theorem switchToOtherWorld_present
    (g : BaseGame) (name : string) (w : World) (im : InputManager) :
  otherWorlds g !! name = Some (Some w) ->
  inputManager g = Some im ->
  exists g',
    switchToOtherWorld name g = Ok g'
    /\ otherWorlds g' = delete name (otherWorlds g)
    /\ otherWorlds g' !! name = None
    /\ getWorld g' = Some w
    /\ events g' = events g ++ retirement_of (world g) ++ rebuild w ++ start w
    /\ forall old, world g = Some old ->
         exists before after,
           (since (length (trace g)) g').*1
           = before ++ World_onStart (world_id w) :: after
           /\ World_onStop (world_id old) ∈ before
           /\ World_onDestroy (world_id old) ∈ before
           /\ forall v, World_onStart v ∉ before.
Proof.
  intros Hname Him.
  destruct (switchToOtherWorld_found g name (Some w) im Hname (or_intror Him))
    as (g' & Hrun & Ht & Hw & Hreg).
  exists g'. split; [done |]. split; [done |].
  split. { by rewrite Hreg, lookup_delete_eq. }
  split; [done |].
  split.
  { rewrite (trace_events _ _ _ Ht). by rewrite fmap_app, !seen_with_events. }
  intros old Hold.
  rewrite (since_app _ _ _ Ht), fmap_app, !seen_with_events, Hold.
  exists (retirement old ++ rebuild w ++ [onPreStartWorld]), [onPostStartWorld].
  split. { cbn. reflexivity. }
  unfold retirement, rebuild. cbn [app].
  split; [| split].
  - rewrite !elem_of_cons. tauto.
  - rewrite !elem_of_cons. tauto.
  - intros v. not_listed.
Qed.

Lemma switchToOtherWorld_present_witness :
  exists g',
    switchToOtherWorld "cellar" Sample.game = Ok g'
    /\ otherWorlds g' = delete "cellar" (otherWorlds Sample.game)
    /\ getWorld g' = Some Sample.cellar
    /\ events g'
       = [ onPreStopWorld; World_onStop 1; onPostStopWorld;
           onPreDestroyWorld 1; World_onDestroy 1; onPostDestroyWorld 1;
           Renderer_new 2; Renderer_setViewport; Renderer_init;
           InputManager_init;
           onPreStartWorld; World_onStart 2; onPostStartWorld ].
Proof.
  destruct (switchToOtherWorld_present Sample.game "cellar" Sample.cellar
              (mkInputManager 1) eq_refl eq_refl)
    as (g' & Hrun & Hreg & _ & Hw & He & _).
  exists g'. repeat split; assumption.
Defined.

(** C6, as stated, fails: the entry is erased after [setWorld] has returned,
    not before it is called.  With [cellar] cached and [lobby] active, the
    registry still has the key "cellar" at every one of the thirteen calls
    of the activation: it holds the cached World while [lobby] is retired,
    and an empty pointer while the new World is wired up and started. *)
Lemma switchToOtherWorld_entry_present_during_activation :
  exists g',
    switchToOtherWorld "cellar" Sample.game = Ok g'
    /\ (fun o => (o.1, o.2 !! "cellar"))
         <$> since (length (trace Sample.game)) g'
       = [ (onPreStopWorld, Some (Some Sample.cellar));
           (World_onStop 1, Some (Some Sample.cellar));
           (onPostStopWorld, Some (Some Sample.cellar));
           (onPreDestroyWorld 1, Some (Some Sample.cellar));
           (World_onDestroy 1, Some (Some Sample.cellar));
           (onPostDestroyWorld 1, Some (Some Sample.cellar));
           (Renderer_new 2, Some None);
           (Renderer_setViewport, Some None);
           (Renderer_init, Some None);
           (InputManager_init, Some None);
           (onPreStartWorld, Some None);
           (World_onStart 2, Some None);
           (onPostStartWorld, Some None) ]
    /\ ~ (forall o, o ∈ since (length (trace Sample.game)) g' ->
                    o.2 !! "cellar" = None).
Proof.
  exists (after (switchToOtherWorld "cellar" Sample.game) Sample.game).
  split; [vm_compute; reflexivity |].
  split; [vm_compute; reflexivity |].
  intros H.
  assert (Hhead : head ((fun o => o.2 !! "cellar")
                          <$> since (length (trace Sample.game))
                                (after (switchToOtherWorld "cellar" Sample.game)
                                       Sample.game))
                  = Some (Some (Some Sample.cellar)))
    by (vm_compute; reflexivity).
  destruct (since _ _) as [|o l]; [discriminate Hhead |].
  cbn in Hhead. rewrite (H o) in Hhead; [discriminate Hhead |].
  apply list_elem_of_here.
Qed.

(** C6, amended.  For a name in the registry, [switchToOtherWorld] calls the
    activation first and erases the entry only after it has returned.  While
    the old World is retired the registry is untouched; from the move of the
    pointer on, the entry is still there and holds an empty pointer; so every
    call made during the activation finds an entry under that name.  When
    [switchToOtherWorld] returns, the entry is gone. *)
Theorem switchToOtherWorld_erases_after_activation
    (g : BaseGame) (name : string) (p : option World) (im : InputManager) :
  otherWorlds g !! name = Some p ->
  inputManager g = Some im ->
  exists g',
    switchToOtherWorld name g = Ok g'
    /\ since (length (trace g)) g'
       = seen_with (otherWorlds g) (retirement_of (world g))
         ++ seen_with (alter (fun _ => None) name (otherWorlds g))
                      (activation_of p)
    /\ alter (fun _ => None) name (otherWorlds g) !! name = Some None
    /\ (forall o, o ∈ since (length (trace g)) g' -> is_Some (o.2 !! name))
    /\ otherWorlds g' = delete name (otherWorlds g)
    /\ otherWorlds g' !! name = None.
Proof.
  intros Hname Him.
  destruct (switchToOtherWorld_found g name p im Hname (or_intror Him))
    as (g' & Hrun & Ht & Hw & Hreg).
  exists g'. split; [done |].
  apply since_app in Ht. split; [done |].
  assert (Hslot : alter (fun _ : option World => None) name (otherWorlds g) !! name
                  = Some None).
  { by rewrite lookup_alter_eq, Hname. }
  split; [done |].
  split.
  { intros o. rewrite Ht, elem_of_app.
    intros [[-> _]%elem_of_seen_with | [-> _]%elem_of_seen_with].
    - by rewrite Hname.
    - by rewrite Hslot. }
  split; [done |]. by rewrite Hreg, lookup_delete_eq.
Qed.

Lemma switchToOtherWorld_erases_after_activation_witness :
  exists g',
    switchToOtherWorld "cellar" Sample.game = Ok g'
    /\ (forall o, o ∈ since (length (trace Sample.game)) g' ->
                  is_Some (o.2 !! "cellar"))
    /\ otherWorlds g' !! "cellar" = None.
Proof.
  destruct (switchToOtherWorld_erases_after_activation Sample.game "cellar"
              (Some Sample.cellar) (mkInputManager 1) eq_refl eq_refl)
    as (g' & Hrun & _ & _ & Hall & _ & Hgone).
  exists g'. repeat split; assumption.
Defined.

(** *** [createWorld] *)

(** C5.  [createWorld] makes its calls in this order: pre-create hook,
    [setConfig], [onCreate], opening of the transaction, registration of the
    player simulation, registration of the physics simulation, commit,
    [initPlayer], post-create hook.  The world comes back with the game's
    configuration and with the two simulations appended to its registry,
    player before physics; the game itself is unchanged but for the trace. *)
Theorem createWorld_order (w : World) (g : BaseGame) :
  events (createWorld w g).2 = events g ++ create_calls w
  /\ simulations (createWorld w g).1
     = simulations w ++ [SimPlayer; SimPhysics]
  /\ world_config (createWorld w g).1 = Some (config g)
  /\ world_id (createWorld w g).1 = world_id w
  /\ world (createWorld w g).2 = world g
  /\ otherWorlds (createWorld w g).2 = otherWorlds g.
Proof.
  unfold createWorld, create_calls. cbn [fst snd].
  rewrite !events_emit. cbn. rewrite <- !app_assoc. by repeat split.
Qed.

(** ** The frame loop *)

(** *** [update] *)

Lemma update_run (g : BaseGame) (w : World) :
  world g = Some w ->
  let now := Num.wrap32 (sdl_clock g (sdl_polls g)) in
  exists g',
    update g = Ok g'
    /\ trace g' = trace g
         ++ seen_with (otherWorlds g) (update_calls w now (lastUpdate g))
    /\ currentTime g' = now
    /\ lastUpdate g' = now
    /\ lastRender g' = lastRender g
    /\ sdl_polls g' = S (sdl_polls g)
    /\ sdl_clock g' = sdl_clock g
    /\ world g' = Some w
    /\ otherWorlds g' = otherWorlds g
    /\ renderer g' = renderer g
    /\ imguiRenderer g' = imguiRenderer g
    /\ window g' = window g
    /\ postCycleDeferred g' = postCycleDeferred g.
Proof.
  intros Hw now. unfold update. cbn. rewrite Hw.
  eexists. split; [reflexivity |]. cbn.
  repeat split; try done. by rewrite <- !app_assoc.
Qed.

(** C7, as stated, fails for gaps of 2^31 ms and more.  The last update was
    at 0 ms and the clock reads 2147483648 ms: the World is advanced by
    -2147483648 ms, not by 2147483648 ms. *)
Lemma update_gap_of_2_31_goes_negative :
  lastUpdate Sample.game = 0
  /\ Num.wrap32 (sdl_clock Sample.game (sdl_polls Sample.game)) = 2147483648
  /\ exists g',
       update Sample.game = Ok g'
       /\ events g'
          = [ SDL_GetTicks_returned 2147483648; SoundManager_update 1;
              World_update 1 (msec (-2147483648)) ]
       /\ World_update 1 (msec (2147483648 - 0)) ∉ events g'.
Proof.
  split; [reflexivity |]. split; [reflexivity |].
  exists (after (update Sample.game) Sample.game).
  split; [vm_compute; reflexivity |].
  assert (He : events (after (update Sample.game) Sample.game)
               = [ SDL_GetTicks_returned 2147483648; SoundManager_update 1;
                   World_update 1 (msec (-2147483648)) ])
    by (vm_compute; reflexivity).
  split; [exact He |].
  rewrite He. not_listed.
Qed.

Lemma to_int_small (z : Z) : 0 <= z < 2^31 -> Num.to_int z = z.
Proof.
  intros Hz. unfold Num.to_int, Num.wrap32.
  rewrite Z.mod_small by lia.
  destruct (Z.ltb_spec z (2^31)); lia.
Qed.

Lemma to_int_range (z : Z) : - 2^31 <= Num.to_int z < 2^31.
Proof.
  unfold Num.to_int, Num.wrap32.
  pose proof (Z.mod_pos_bound z (2^32) ltac:(lia)) as Hm.
  destruct (Z.ltb_spec (z mod 2^32) (2^31)); lia.
Qed.

(** C7, amended.  With a last update at T0 and a poll returning T1, [update]
    advances the active World by the difference T1 - T0 taken modulo 2^32 and
    read as a 32-bit [int], without any clamping, and stores T1 as the new
    last-update timestamp.  That amount is exactly T1 - T0 whenever
    0 <= T1 - T0 < 2^31 (so T1 = T0 gives an update of length zero); it
    always lies in the range of [int]. *)
Theorem update_advances_by_elapsed (g : BaseGame) (w : World) :
  world g = Some w ->
  exists g',
    update g = Ok g'
    /\ events g'
       = events g
         ++ [ SDL_GetTicks_returned (Num.wrap32 (sdl_clock g (sdl_polls g)));
              SoundManager_update (world_id w);
              World_update (world_id w)
                (msec (Num.to_int (Num.wrap32 (sdl_clock g (sdl_polls g))
                                   - lastUpdate g))) ]
    /\ lastUpdate g' = Num.wrap32 (sdl_clock g (sdl_polls g))
    /\ (0 <= Num.wrap32 (sdl_clock g (sdl_polls g)) - lastUpdate g < 2^31 ->
        Num.to_int (Num.wrap32 (sdl_clock g (sdl_polls g)) - lastUpdate g)
        = Num.wrap32 (sdl_clock g (sdl_polls g)) - lastUpdate g)
    /\ (Num.wrap32 (sdl_clock g (sdl_polls g)) = lastUpdate g ->
        Num.to_int (Num.wrap32 (sdl_clock g (sdl_polls g)) - lastUpdate g) = 0)
    /\ - 2^31
       <= Num.to_int (Num.wrap32 (sdl_clock g (sdl_polls g)) - lastUpdate g)
       < 2^31.
Proof.
  intros Hw.
  destruct (update_run g w Hw) as (g' & Hrun & Ht & _ & Hlast & _).
  exists g'. split; [done |].
  split. { rewrite (trace_events _ _ _ Ht). by rewrite seen_with_events. }
  split; [done |].
  split; [apply to_int_small |].
  split; [| apply to_int_range].
  intros ->. rewrite Z.sub_diag. by apply to_int_small.
Qed.

Lemma update_advances_by_elapsed_witness :
  exists g',
    update Sample.game16 = Ok g'
    /\ events g'
       = [ SDL_GetTicks_returned 16; SoundManager_update 1;
           World_update 1 (msec 16) ]
    /\ lastUpdate g' = 16.
Proof.
  destruct (update_advances_by_elapsed Sample.game16 Sample.lobby eq_refl)
    as (g' & Hrun & He & Hlast & _).
  exists g'. repeat split; assumption.
Defined.

(** *** [render] *)

(** The camera as [prepareCamera] leaves it. *)
Lemma render_run (g : BaseGame) (w : World) r i :
  world g = Some w -> renderer g = Some r -> imguiRenderer g = Some i ->
  exists g' w',
    render g = Ok g'
    /\ trace g' = trace g ++ seen_with (otherWorlds g) render_calls
    /\ world g' = Some w'
    /\ world_id w' = world_id w
    /\ getPlayer w' = getPlayer w
    /\ camera w'
       = mkCamera true
           (Num.fdiv (Num.of_int (viewportWidth (window g)))
                     (Num.of_int (viewportHeight (window g))))
           (vadd (getPosition (getPlayer w)) (headOffset (getPlayer w)))
           (getHeadOrientation (getPlayer w))
    /\ lastRender g' = currentTime g
    /\ currentTime g' = currentTime g
    /\ lastUpdate g' = lastUpdate g
    /\ sdl_polls g' = sdl_polls g
    /\ otherWorlds g' = otherWorlds g
    /\ renderer g' = renderer g
    /\ imguiRenderer g' = imguiRenderer g
    /\ postCycleDeferred g' = postCycleDeferred g.
Proof.
  intros Hw Hr Hi. unfold render, prepareCamera. rewrite Hw. cbn.
  rewrite Hr, Hi.
  eexists. eexists. split; [reflexivity |]. cbn.
  repeat split; try done. by rewrite <- !app_assoc.
Qed.

(** C8.  After [render], the camera of the active World stands at the
    player's position plus the vector (0, scale.y / 2, 0), and its aspect is
    the window's width divided by its height, both converted to [float]; the
    sums and quotients are those of [float].  The player itself is not moved
    by [render]. *)
Theorem render_places_camera (g : BaseGame) (w : World) r i :
  world g = Some w -> renderer g = Some r -> imguiRenderer g = Some i ->
  exists g' w',
    render g = Ok g'
    /\ getWorld g' = Some w'
    /\ getPlayer w' = getPlayer w
    /\ cam_position (camera w')
       = vadd (getPosition (getPlayer w'))
              (mkVector3f (Num.of_int 0)
                          (Num.fdiv (vy (getScale (getPlayer w'))) (Num.of_int 2))
                          (Num.of_int 0))
    /\ aspect (camera w')
       = Num.fdiv (Num.of_int (viewportWidth (window g)))
                  (Num.of_int (viewportHeight (window g))).
Proof.
  intros Hw Hr Hi.
  destruct (render_run g w r i Hw Hr Hi)
    as (g' & w' & Hrun & _ & Hw' & _ & Hp & Hc & _).
  exists g', w'. repeat (split; [done |]).
  rewrite Hc, Hp. by split.
Qed.

(** On the sample game: the player is at (1, 2, 3) and 3 units tall, the
    window is 800 by 600; the camera ends up at (1, 3.5, 3) with aspect
    11184811 * 2^-23, the [float] nearest to 4/3. *)
Lemma render_places_camera_witness :
  exists g' w',
    render Sample.game16 = Ok g'
    /\ getWorld g' = Some w'
    /\ cam_position (camera w')
       = mkVector3f (Num.of_int 1) (S754_finite false 14680064 (-22))
                    (Num.of_int 3)
    /\ aspect (camera w') = S754_finite false 11184811 (-23).
Proof.
  destruct (render_places_camera Sample.game16 Sample.lobby
              (mkRenderer 1 true true) (mkImguiRenderer 1)
              eq_refl eq_refl eq_refl)
    as (g' & w' & Hrun & Hw & Hp & Hpos & Hasp).
  exists g', w'. split; [exact Hrun |]. split; [exact Hw |].
  rewrite Hpos, Hasp, Hp. split; vm_compute; reflexivity.
Defined.

(** C10.  [render] does not read the clock: it makes no call of
    [SDL_GetTicks], and the render timestamp it records is the value
    [currentTime] had when it was called.  After [update] followed by
    [render], that is the value the clock returned to [update], and the clock
    has been read once in all. *)
Theorem render_records_update_time (g : BaseGame) (w : World) r i :
  world g = Some w -> renderer g = Some r -> imguiRenderer g = Some i ->
  (exists g',
     render g = Ok g'
     /\ lastRender g' = currentTime g
     /\ sdl_polls g' = sdl_polls g
     /\ forall t, SDL_GetTicks_returned t ∉ (since (length (trace g)) g').*1)
  /\ (exists g1 g2,
        update g = Ok g1
        /\ render g1 = Ok g2
        /\ currentTime g1 = Num.wrap32 (sdl_clock g (sdl_polls g))
        /\ lastRender g2 = Num.wrap32 (sdl_clock g (sdl_polls g))
        /\ sdl_polls g2 = S (sdl_polls g)).
Proof.
  intros Hw Hr Hi. split.
  - destruct (render_run g w r i Hw Hr Hi)
      as (g' & w' & Hrun & Ht & _ & _ & _ & _ & Hlast & _ & _ & Hpolls & _).
    exists g'. repeat (split; [done |]).
    intros t. rewrite (since_app _ _ _ Ht), seen_with_events.
    unfold render_calls. not_listed.
  - destruct (update_run g w Hw)
      as (g1 & Hrun1 & _ & Hnow & _ & _ & Hpolls1 & _ & Hw1 & _ & Hr1 & Hi1 & _).
    destruct (render_run g1 w r i Hw1 ltac:(congruence) ltac:(congruence))
      as (g2 & w' & Hrun2 & _ & _ & _ & _ & _ & Hlast & _ & _ & Hpolls2 & _).
    exists g1, g2. repeat split; congruence.
Qed.

Lemma render_records_update_time_witness :
  exists g1 g2,
    update Sample.game16 = Ok g1
    /\ render g1 = Ok g2
    /\ lastRender g2 = 16
    /\ sdl_polls g2 = 1%nat.
Proof.
  destruct (render_records_update_time Sample.game16 Sample.lobby
              (mkRenderer 1 true true) (mkImguiRenderer 1)
              eq_refl eq_refl eq_refl)
    as (_ & g1 & g2 & Hrun1 & Hrun2 & _ & Hlast & Hpolls).
  exists g1, g2. repeat split; assumption.
Defined.

(** *** The deferred queue *)

Lemma deferAll_queue (ts : list Task) (g : BaseGame) :
  deferAll ts g = set_postCycleDeferred (postCycleDeferred g ++ ts) g.
Proof.
  unfold deferAll. revert g. induction ts as [|t ts IH]; intros g; cbn.
  - rewrite app_nil_r. by destruct g.
  - rewrite IH. cbn. by rewrite <- app_assoc.
Qed.

Lemma calls_app (ts us : list Task) : calls (ts ++ us) = calls ts ++ calls us.
Proof. unfold calls. apply fmap_app. Qed.

(** The loop over closures that all return: every one is called, in queue
    order, and the loop runs to its end. *)
Lemma callAll_returns (ts : list Task) (g : BaseGame) :
  Forall returns ts ->
  exists g',
    callAll ts g = Ok g'
    /\ trace g' = trace g ++ seen_with (otherWorlds g) (calls ts)
    /\ otherWorlds g' = otherWorlds g
    /\ postCycleDeferred g' = postCycleDeferred g.
Proof.
  intros Hts. revert g. induction Hts as [|t ts Ht _ IH]; intros g.
  - exists g. cbn. by rewrite app_nil_r.
  - cbn [callAll]. unfold call.
    destruct (Ht (world (emit (deferred_called (task_id t)) g))) as [w' ->].
    cbn [bind].
    destruct (IH (set_world w' (emit (deferred_called (task_id t)) g)))
      as (g' & -> & Htr & Hreg & Hq).
    exists g'. split; [done |]. cbn in Htr, Hreg, Hq.
    repeat split; try done.
    rewrite Htr. cbn. by rewrite <- app_assoc.
Qed.

(** The loop is left at the first closure that throws: the closures behind it
    are not called. *)
Lemma callAll_throws (pre post : list Task) (t : Task) (g : BaseGame) :
  Forall returns pre -> throws t ->
  exists g',
    callAll (pre ++ t :: post) g = Throw (task_exception (task_id t)) g'
    /\ trace g' = trace g ++ seen_with (otherWorlds g) (calls (pre ++ [t]))
    /\ otherWorlds g' = otherWorlds g
    /\ postCycleDeferred g' = postCycleDeferred g.
Proof.
  intros Hpre Ht. revert g. induction Hpre as [|u pre Hu _ IH]; intros g.
  - cbn [app callAll]. unfold call.
    destruct (Ht (world (emit (deferred_called (task_id t)) g))) as [w' ->].
    cbn [bind]. eexists. split; [reflexivity |]. by cbn.
  - cbn [app callAll]. unfold call at 1.
    destruct (Hu (world (emit (deferred_called (task_id u)) g))) as [w' ->].
    cbn [bind].
    destruct (IH (set_world w' (emit (deferred_called (task_id u)) g)))
      as (g' & -> & Htr & Hreg & Hq).
    exists g'. split; [done |]. cbn in Htr, Hreg, Hq.
    repeat split; try done.
    rewrite Htr. cbn. by rewrite <- app_assoc.
Qed.

Lemma postCycle_returns (g : BaseGame) :
  Forall returns (postCycleDeferred g) ->
  exists g',
    postCycle g = Ok g'
    /\ trace g' = trace g
         ++ seen_with (otherWorlds g) (calls (postCycleDeferred g))
    /\ postCycleDeferred g' = [].
Proof.
  intros Hq. unfold postCycle.
  destruct (postCycleDeferred g) as [|t ts] eqn:Hts.
  - exists g. cbn. by rewrite app_nil_r.
  - cbn [length Nat.ltb Nat.leb].
    destruct (callAll_returns (t :: ts) g Hq) as (g' & -> & Htr & _).
    cbn [bind]. eexists. split; [reflexivity |]. by cbn.
Qed.

Lemma postCycle_throws (g : BaseGame) (pre post : list Task) (t : Task) :
  postCycleDeferred g = pre ++ t :: post ->
  Forall returns pre -> throws t ->
  exists g',
    postCycle g = Throw (task_exception (task_id t)) g'
    /\ trace g' = trace g ++ seen_with (otherWorlds g) (calls (pre ++ [t]))
    /\ postCycleDeferred g' = pre ++ t :: post.
Proof.
  intros Hq Hpre Ht. unfold postCycle. rewrite Hq.
  assert (Hlen : (0 <? length (pre ++ t :: post))%nat = true).
  { apply Nat.ltb_lt. rewrite length_app. cbn. lia. }
  rewrite Hlen.
  destruct (callAll_throws pre post t g Hpre Ht) as (g' & -> & Htr & _ & Hq').
  cbn [bind]. exists g'. repeat split; [done | congruence].
Qed.

(** [render], with the whole world it leaves. *)
Lemma render_world (g : BaseGame) (w : World) r i :
  world g = Some w -> renderer g = Some r -> imguiRenderer g = Some i ->
  exists g',
    render g = Ok g'
    /\ world g'
       = Some (with_camera
                 (mkCamera true
                    (Num.fdiv (Num.of_int (viewportWidth (window g)))
                              (Num.of_int (viewportHeight (window g))))
                    (vadd (getPosition (getPlayer w)) (headOffset (getPlayer w)))
                    (getHeadOrientation (getPlayer w)))
                 w)
    /\ window g' = window g
    /\ renderer g' = renderer g
    /\ imguiRenderer g' = imguiRenderer g.
Proof.
  intros Hw Hr Hi. unfold render, prepareCamera. rewrite Hw. cbn.
  rewrite Hr, Hi. eexists. split; [reflexivity |]. by cbn.
Qed.

(** One iteration up to the flush: the three phases have made their calls,
    the queue holds what was left over followed by what the phases enqueued,
    in that order, and the World is as render left it. *)
Lemma cycle_until_flush (g : BaseGame) (w : World) r i
    (in_events in_update in_render : list Task) :
  world g = Some w -> renderer g = Some r -> imguiRenderer g = Some i ->
  exists g3,
    cycle in_events in_update in_render g = postCycle g3
    /\ trace g3 = trace g
         ++ seen_with (otherWorlds g)
              (frame_calls w (Num.wrap32 (sdl_clock g (sdl_polls g)))
                           (lastUpdate g))
    /\ otherWorlds g3 = otherWorlds g
    /\ postCycleDeferred g3
       = postCycleDeferred g ++ in_events ++ in_update ++ in_render
    /\ world g3 = Some (rendered g w).
Proof.
  intros Hw Hr Hi. unfold cycle. rewrite deferAll_queue.
  set (g0 := set_postCycleDeferred _ (preCycle g)).
  destruct (update_run g0 w Hw)
    as (g1 & -> & Ht1 & _ & _ & _ & _ & _ & Hw1 & Hreg1 & Hr1 & Hi1 & Hwin1 & Hq1).
  cbn [bind]. rewrite deferAll_queue.
  set (g1' := set_postCycleDeferred _ g1).
  assert (Hr1' : renderer g1' = Some r) by (cbn; rewrite Hr1; exact Hr).
  assert (Hi1' : imguiRenderer g1' = Some i) by (cbn; rewrite Hi1; exact Hi).
  destruct (render_run g1' w r i Hw1 Hr1' Hi1')
    as (g2 & w' & Hrun2 & Ht2 & _ & _ & _ & _ & _ & _ & _ & _ & Hreg2 & _ & _ & Hq2).
  destruct (render_world g1' w r i Hw1 Hr1' Hi1') as (g2' & Hrun2' & Hw2 & _).
  assert (g2' = g2) as -> by congruence.
  rewrite Hrun2.
  cbn [bind]. rewrite deferAll_queue.
  eexists. split; [reflexivity |]. cbn.
  rewrite Ht2, Hreg2, Hq2, Hw2. cbn. rewrite Ht1, Hreg1, Hq1, Hwin1. cbn.
  repeat split.
  - by rewrite <- !app_assoc.
  - by rewrite <- !app_assoc.
Qed.

(** C1, as stated, fails when a closure throws.  Two closures are enqueued
    during update; the first throws.  [postCycle] is left through the
    exception: the second closure is never called and both are still in the
    queue. *)
Lemma cycle_throwing_task_leaves_queue :
  exists g',
    cycle [] [Sample.faulty 1; Sample.quiet 2] [] Sample.game16
    = Throw (task_exception 1) g'
    /\ events g'
       = [ Window_processEvents;
           SDL_GetTicks_returned 16; SoundManager_update 1;
           World_update 1 (msec 16);
           Window_getSize; Renderer_render; ImguiRenderer_render;
           Screens_clear; Fps_countCycle; Window_swapBuffers;
           deferred_called 1 ]
    /\ task_id <$> postCycleDeferred g' = [1; 2]%nat
    /\ postCycleDeferred g' <> [].
Proof.
  exists (after (cycle [] [Sample.faulty 1; Sample.quiet 2] [] Sample.game16)
                Sample.game16).
  split; [vm_compute; reflexivity |].
  split; [vm_compute; reflexivity |].
  assert (Hq : task_id <$> postCycleDeferred
                 (after (cycle [] [Sample.faulty 1; Sample.quiet 2] []
                           Sample.game16) Sample.game16)
               = [1; 2]%nat) by (vm_compute; reflexivity).
  split; [exact Hq |].
  intros Hnil. rewrite Hnil in Hq. discriminate Hq.
Qed.

(** The range-for over any closures, with the worlds they see: it visits all
    of them when each one returns on what its predecessors left of the world,
    and is left at the first one that throws. *)
Lemma callAll_run (ts : list Task) (g : BaseGame) :
  match callAll ts g with
  | Ok g' =>
      all_return ts (world g) = Some (world g')
      /\ trace g' = trace g ++ seen_with (otherWorlds g) (calls ts)
      /\ postCycleDeferred g' = postCycleDeferred g
  | Throw e g' =>
      exists pre t post w1,
        ts = pre ++ t :: post
        /\ all_return pre (world g) = Some w1
        /\ task_run t w1 = Raised (world g')
        /\ e = task_exception (task_id t)
        /\ trace g' = trace g ++ seen_with (otherWorlds g) (calls (pre ++ [t]))
        /\ postCycleDeferred g' = postCycleDeferred g
  | Undefined => False
  end.
Proof.
  revert g. induction ts as [|t ts IH]; intros g.
  - cbn. by rewrite app_nil_r.
  - cbn [callAll all_return]. unfold call.
    change (world (emit (deferred_called (task_id t)) g)) with (world g).
    destruct (task_run t (world g)) as [w'|w'] eqn:E; cbn [bind].
    + specialize (IH (set_world w' (emit (deferred_called (task_id t)) g))).
      destruct (callAll ts _) as [g' | e g' |]; [| | done].
      * destruct IH as (Hall & Ht & Hq). cbn in Hall, Ht, Hq.
        split; [done |]. split; [| done].
        rewrite Ht. cbn. by rewrite <- app_assoc.
      * destruct IH as (pre & u & post & w1 & -> & Hall & Hu & -> & Ht & Hq).
        cbn in Hall, Ht, Hq.
        exists (t :: pre), u, post, w1. split; [done |].
        split; [cbn; by rewrite E |]. split; [done |]. split; [done |].
        split; [| done]. rewrite Ht. cbn. by rewrite <- app_assoc.
    + exists [], t, ts, (world g). cbn. by repeat split.
Qed.

Lemma postCycle_run (g : BaseGame) :
  match postCycle g with
  | Ok g' =>
      all_return (postCycleDeferred g) (world g) = Some (world g')
      /\ trace g' = trace g
           ++ seen_with (otherWorlds g) (calls (postCycleDeferred g))
      /\ postCycleDeferred g' = []
  | Throw e g' =>
      exists pre t post w1,
        postCycleDeferred g = pre ++ t :: post
        /\ all_return pre (world g) = Some w1
        /\ task_run t w1 = Raised (world g')
        /\ e = task_exception (task_id t)
        /\ trace g' = trace g ++ seen_with (otherWorlds g) (calls (pre ++ [t]))
        /\ postCycleDeferred g' = postCycleDeferred g
  | Undefined => False
  end.
Proof.
  unfold postCycle.
  destruct (postCycleDeferred g) as [|t ts] eqn:Hq.
  - cbn. by rewrite app_nil_r.
  - cbn [length Nat.ltb Nat.leb].
    pose proof (callAll_run (t :: ts) g) as H.
    destruct (callAll (t :: ts) g) as [g' | e g' |]; cbn [bind]; [| | done].
    + destruct H as (Hall & Ht & _). by repeat split.
    + destruct H as (pre & u & post & w1 & Hts & Hall & Hu & -> & Ht & Hq').
      exists pre, u, post, w1. repeat (split; [done |]). congruence.
Qed.

(** C1, amended.  In a loop iteration, [postCycle] runs after render and
    calls the closures of the queue (those left from before and those
    enqueued during event handling, update and render) in enqueue order,
    starting on the World as render left it.  The iteration ends in one of
    two ways.  It returns exactly when every closure returned on what its
    predecessors left of the World: each one has then been called exactly
    once and the queue is empty.  It throws when a closure threw: the
    closures before it and the throwing one have been called once each, the
    exception leaves [postCycle], no closure behind it is called and the
    queue is left as it was, uncleared.  In particular, closures that return
    on every World give the first outcome, and a closure that throws on
    every World behind closures that return on every World gives the
    second. *)
Theorem cycle_flushes_deferred (g : BaseGame) (w : World) r i
    (in_events in_update in_render : list Task) :
  world g = Some w -> renderer g = Some r -> imguiRenderer g = Some i ->
  match cycle in_events in_update in_render g with
  | Ok g' =>
      all_return (postCycleDeferred g ++ in_events ++ in_update ++ in_render)
                 (Some (rendered g w))
      = Some (world g')
      /\ events g'
         = events g
           ++ frame_calls w (Num.wrap32 (sdl_clock g (sdl_polls g)))
                          (lastUpdate g)
           ++ calls (postCycleDeferred g ++ in_events ++ in_update ++ in_render)
      /\ postCycleDeferred g' = []
  | Throw e g' =>
      exists pre t post w1,
        postCycleDeferred g ++ in_events ++ in_update ++ in_render
        = pre ++ t :: post
        /\ all_return pre (Some (rendered g w)) = Some w1
        /\ task_run t w1 = Raised (world g')
        /\ e = task_exception (task_id t)
        /\ events g'
           = events g
             ++ frame_calls w (Num.wrap32 (sdl_clock g (sdl_polls g)))
                            (lastUpdate g)
             ++ calls pre ++ [deferred_called (task_id t)]
        /\ postCycleDeferred g'
           = postCycleDeferred g ++ in_events ++ in_update ++ in_render
  | Undefined => False
  end
  /\ (Forall returns
        (postCycleDeferred g ++ in_events ++ in_update ++ in_render) ->
      exists g',
        cycle in_events in_update in_render g = Ok g'
        /\ events g'
           = events g
             ++ frame_calls w (Num.wrap32 (sdl_clock g (sdl_polls g)))
                            (lastUpdate g)
             ++ calls (postCycleDeferred g ++ in_events ++ in_update ++ in_render)
        /\ postCycleDeferred g' = [])
  /\ (forall pre t post,
        postCycleDeferred g ++ in_events ++ in_update ++ in_render
        = pre ++ t :: post ->
        Forall returns pre -> throws t ->
        exists g',
          cycle in_events in_update in_render g
          = Throw (task_exception (task_id t)) g'
          /\ events g'
             = events g
               ++ frame_calls w (Num.wrap32 (sdl_clock g (sdl_polls g)))
                              (lastUpdate g)
               ++ calls pre ++ [deferred_called (task_id t)]
          /\ postCycleDeferred g'
             = postCycleDeferred g ++ in_events ++ in_update ++ in_render).
Proof.
  intros Hw Hr Hi.
  destruct (cycle_until_flush g w r i in_events in_update in_render Hw Hr Hi)
    as (g3 & Hrun & Ht3 & Hreg3 & Hq3 & Hw3).
  rewrite Hrun. split; [| split].
  - pose proof (postCycle_run g3) as H. rewrite Hq3, Hw3, Hreg3 in H.
    destruct (postCycle g3) as [g' | e g' |]; [| | done].
    + destruct H as (Hall & Ht & Hq). split; [done |]. split; [| done].
      rewrite Ht3, <- app_assoc in Ht.
      rewrite (trace_events _ _ _ Ht). by rewrite fmap_app, !seen_with_events.
    + destruct H as (pre & t & post & w1 & Hsplit & Hall & Hthrow & -> & Ht & Hq).
      exists pre, t, post, w1. repeat (split; [done |]). split; [| done].
      rewrite Ht3, <- app_assoc in Ht.
      rewrite (trace_events _ _ _ Ht).
      by rewrite fmap_app, !seen_with_events, calls_app.
  - intros Hall. rewrite <- Hq3 in Hall.
    destruct (postCycle_returns g3 Hall) as (g' & Hflush & Ht & Hq).
    exists g'. split; [done |]. split; [| done].
    rewrite Ht3, Hreg3, Hq3, <- app_assoc in Ht.
    rewrite (trace_events _ _ _ Ht). by rewrite fmap_app, !seen_with_events.
  - intros pre t post Hsplit Hpre Hthrow. rewrite <- Hq3 in Hsplit.
    destruct (postCycle_throws g3 pre post t Hsplit Hpre Hthrow)
      as (g' & Hflush & Ht & Hq).
    exists g'. split; [done |]. split; [| congruence].
    rewrite Ht3, Hreg3, <- app_assoc in Ht.
    rewrite (trace_events _ _ _ Ht).
    by rewrite fmap_app, !seen_with_events, calls_app.
Qed.

Lemma returns_quiet (n : nat) : returns (Sample.quiet n).
Proof. intros w. by exists w. Qed.

Lemma cycle_flushes_deferred_witness :
  exists g',
    cycle [Sample.quiet 1] [Sample.quiet 2; Sample.quiet 3] [Sample.quiet 4]
          Sample.game16 = Ok g'
    /\ events g'
       = [ Window_processEvents;
           SDL_GetTicks_returned 16; SoundManager_update 1;
           World_update 1 (msec 16);
           Window_getSize; Renderer_render; ImguiRenderer_render;
           Screens_clear; Fps_countCycle; Window_swapBuffers;
           deferred_called 1; deferred_called 2; deferred_called 3;
           deferred_called 4 ]
    /\ postCycleDeferred g' = [].
Proof.
  destruct (cycle_flushes_deferred Sample.game16 Sample.lobby
              (mkRenderer 1 true true) (mkImguiRenderer 1)
              [Sample.quiet 1] [Sample.quiet 2; Sample.quiet 3] [Sample.quiet 4]
              eq_refl eq_refl eq_refl)
    as (_ & Hok & _).
  destruct Hok as (g' & Hrun & He & Hq).
  { repeat constructor; apply returns_quiet. }
  exists g'. repeat split; assumption.
Defined.

(** Closures whose outcome depends on the World they find: the same closure
    returns when it is alone in the queue and throws behind one that took the
    World away. *)
Lemma cycle_picky_alone :
  exists g',
    cycle [] [Boot.picky 1] [] Sample.game16 = Ok g'
    /\ postCycleDeferred g' = [].
Proof.
  exists (after (cycle [] [Boot.picky 1] [] Sample.game16) Sample.game16).
  split; vm_compute; reflexivity.
Qed.

Lemma cycle_wipe_then_picky :
  exists g',
    cycle [] [Boot.wipe 1; Boot.picky 2; Sample.quiet 3] [] Sample.game16
    = Throw (task_exception 2) g'
    /\ task_id <$> postCycleDeferred g' = [1; 2; 3]%nat
    /\ drop 10 (events g') = [deferred_called 1; deferred_called 2].
Proof.
  exists (after (cycle [] [Boot.wipe 1; Boot.picky 2; Sample.quiet 3] []
                   Sample.game16) Sample.game16).
  split; [vm_compute; reflexivity |].
  split; vm_compute; reflexivity.
Qed.

(** ** Further properties of the world lifecycle *)

Lemma setWorld_no_input (newWorld : WorldRef) (g : BaseGame) w :
  deref newWorld g = Some w -> inputManager g = None ->
  setWorld newWorld g = Undefined.
Proof.
  intros Hd Him. unfold setWorld.
  destruct (stopAndDestroy_frame g) as (_ & Hreg & _ & _ & Him1 & _).
  apply (rebuildAndStart_no_input _ w).
  - rewrite takeOwnership_world, <- Hd.
    destruct newWorld; cbn; [done | by rewrite Hreg].
  - destruct (takeOwnership_frame newWorld (stopAndDestroy g)) as (_ & _ & _ & ->).
    congruence.
Qed.

(** X1.  [setWorld] calls [inputManager->init()] without a test.  Its
    behaviour is undefined exactly when it is given a non-null World while
    the game has no InputManager; with an empty pointer, or with an
    InputManager, it is defined. *)
Theorem setWorld_defined_iff (newWorld : WorldRef) (g : BaseGame) :
  setWorld newWorld g = Undefined
  <-> is_Some (deref newWorld g) /\ inputManager g = None.
Proof.
  destruct (deref newWorld g) as [w|] eqn:Hd.
  - destruct (inputManager g) as [im|] eqn:Him.
    + destruct (setWorld_general newWorld g im (or_intror Him))
        as (g' & -> & _).
      split; [done | by intros [_ ?]].
    + rewrite (setWorld_no_input newWorld g w Hd Him).
      split; [by eauto | done].
  - destruct (setWorld_general newWorld g (mkInputManager 0))
      as (g' & -> & _); [by left |].
    split; [done | by intros [[? ?] _]].
Qed.

(** X2.  The first activation: when no World is active, [setWorld] with a
    World makes no stop and no destroy call at all; it builds the renderer,
    initialises the InputManager and runs the three start calls. *)
Theorem setWorld_first_activation
    (newWorld : WorldRef) (g : BaseGame) (w : World) (im : InputManager) :
  world g = None ->
  deref newWorld g = Some w ->
  inputManager g = Some im ->
  exists g',
    setWorld newWorld g = Ok g'
    /\ events g' = events g ++ rebuild w ++ start w
    /\ getWorld g' = Some w.
Proof.
  intros Hw Hd Him.
  destruct (setWorld_general newWorld g im (or_intror Him))
    as (g' & Hrun & Ht & Hw' & _).
  exists g'. split; [done |]. split; [| unfold getWorld; congruence].
  rewrite (trace_events _ _ _ Ht), Hw, Hd.
  by rewrite fmap_app, !seen_with_events.
Qed.

Lemma setWorld_first_activation_witness :
  exists g',
    setWorld (Temporary (Some Sample.cellar))
             (set_inputManager (Some (mkInputManager 0)) Boot.blank) = Ok g'
    /\ events g'
       = [ Renderer_new 2; Renderer_setViewport; Renderer_init;
           InputManager_init; onPreStartWorld; World_onStart 2;
           onPostStartWorld ]
    /\ getWorld g' = Some Sample.cellar.
Proof.
  exact (setWorld_first_activation (Temporary (Some Sample.cellar))
           (set_inputManager (Some (mkInputManager 0)) Boot.blank)
           Sample.cellar (mkInputManager 0) eq_refl eq_refl eq_refl).
Defined.

(** X3.  Whenever [setWorld] returns with a World active, the renderer is
    one built for that World, with its viewport set and initialised, and the
    InputManager has been initialised exactly once more.  When it returns
    with no World active, renderer and InputManager are the ones from before
    the call: the renderer is then still the one of the destroyed World. *)
Theorem setWorld_renderer_follows_world
    (newWorld : WorldRef) (g g' : BaseGame) :
  setWorld newWorld g = Ok g' ->
  match getWorld g' with
  | Some w =>
      renderer g' = Some (mkRenderer (world_id w) true true)
      /\ exists im, inputManager g = Some im
                    /\ inputManager g' = Some (mkInputManager (S (init_count im)))
  | None => renderer g' = renderer g /\ inputManager g' = inputManager g
  end.
Proof.
  intros Hrun. unfold getWorld.
  destruct (deref newWorld g) as [w|] eqn:Hd.
  - destruct (inputManager g) as [im|] eqn:Him.
    + destruct (setWorld_general newWorld g im (or_intror Him))
        as (g1 & Hrun1 & _ & Hw & _ & _ & _ & Hfields).
      rewrite Hd in Hw, Hfields.
      assert (g1 = g') as -> by congruence.
      rewrite Hw. destruct Hfields. split; [done |]. by exists im.
    + by rewrite (setWorld_no_input newWorld g w Hd Him) in Hrun.
  - destruct (setWorld_general newWorld g (mkInputManager 0))
      as (g1 & Hrun1 & _ & Hw & _ & _ & _ & Hfields); [by left |].
    rewrite Hd in Hw, Hfields.
    assert (g1 = g') as -> by congruence.
    by rewrite Hw.
Qed.

Lemma setWorld_renderer_follows_world_witness :
  renderer (after (setWorld (RegistrySlot "cellar") Sample.game) Sample.game)
  = Some (mkRenderer 2 true true).
Proof.
  assert (Hrun : setWorld (RegistrySlot "cellar") Sample.game
                 = Ok (after (setWorld (RegistrySlot "cellar") Sample.game)
                             Sample.game))
    by (vm_compute; reflexivity).
  pose proof (setWorld_renderer_follows_world _ _ _ Hrun) as H.
  assert (Hw : getWorld (after (setWorld (RegistrySlot "cellar") Sample.game)
                               Sample.game) = Some Sample.cellar)
    by (vm_compute; reflexivity).
  rewrite Hw in H. exact (proj1 H).
Defined.

Lemma switchToOtherWorld_run (g : BaseGame) (name : string) p im :
  otherWorlds g !! name = Some p ->
  p = None \/ inputManager g = Some im ->
  exists g',
    switchToOtherWorld name g = Ok g'
    /\ events g' = events g ++ retirement_of (world g) ++ activation_of p
    /\ world g' = p
    /\ otherWorlds g' = delete name (otherWorlds g)
    /\ postCycleDeferred g' = postCycleDeferred g
    /\ match p with
       | Some w => renderer g' = Some (mkRenderer (world_id w) true true)
                   /\ inputManager g' = Some (mkInputManager (S (init_count im)))
       | None => renderer g' = renderer g /\ inputManager g' = inputManager g
       end.
Proof.
  intros Hname Hin. unfold switchToOtherWorld. rewrite Hname.
  assert (Hd : deref (RegistrySlot name) g = p).
  { cbn. by rewrite Hname. }
  destruct (setWorld_general (RegistrySlot name) g im)
    as (g1 & -> & Ht & Hw & Hreg & _ & Hq & Hfields); [by rewrite Hd |].
  rewrite Hd in Ht, Hw, Hfields. cbn [moved_from] in Ht, Hreg. cbn in Hreg.
  eexists. split; [reflexivity |]. cbn.
  split.
  { change (events g1 = events g ++ retirement_of (world g) ++ activation_of p).
    rewrite (trace_events _ _ _ Ht). by rewrite fmap_app, !seen_with_events. }
  repeat split; try done.
  by rewrite Hreg, delete_alter_eq.
Qed.

(** X4.  A cached World can be switched to once only: the switch removes its
    entry, so a second [switchToOtherWorld] with the same name throws
    [std::out_of_range] and changes nothing. *)
Theorem switchToOtherWorld_only_once
    (g : BaseGame) (name : string) (w : World) (im : InputManager) :
  otherWorlds g !! name = Some (Some w) ->
  inputManager g = Some im ->
  exists g',
    switchToOtherWorld name g = Ok g'
    /\ switchToOtherWorld name g'
       = Throw (out_of_range "No other world by this name") g'.
Proof.
  intros Hname Him.
  destruct (switchToOtherWorld_run g name (Some w) im Hname (or_intror Him))
    as (g' & Hrun & _ & _ & Hreg & _).
  exists g'. split; [done |].
  unfold switchToOtherWorld at 1. by rewrite Hreg, lookup_delete_eq.
Qed.

Lemma switchToOtherWorld_only_once_witness :
  exists g',
    switchToOtherWorld "cellar" Sample.game = Ok g'
    /\ switchToOtherWorld "cellar" g'
       = Throw (out_of_range "No other world by this name") g'.
Proof.
  exact (switchToOtherWorld_only_once Sample.game "cellar" Sample.cellar
           (mkInputManager 1) eq_refl eq_refl).
Defined.

(** X5.  An entry that holds an empty pointer can be switched to as well:
    the active World is retired, no World is active afterwards, the entry is
    erased, and neither the renderer nor the InputManager is touched; no
    InputManager is needed for this. *)
Theorem switchToOtherWorld_empty_entry (g : BaseGame) (name : string) :
  otherWorlds g !! name = Some None ->
  exists g',
    switchToOtherWorld name g = Ok g'
    /\ events g' = events g ++ retirement_of (world g)
    /\ getWorld g' = None
    /\ otherWorlds g' = delete name (otherWorlds g)
    /\ renderer g' = renderer g
    /\ inputManager g' = inputManager g.
Proof.
  intros Hname.
  destruct (switchToOtherWorld_run g name None (mkInputManager 0) Hname
              (or_introl eq_refl))
    as (g' & Hrun & He & Hw & Hreg & _ & Hr & Him).
  exists g'. cbn in He. rewrite app_nil_r in He. by repeat split.
Qed.

Lemma switchToOtherWorld_empty_entry_witness :
  exists g',
    switchToOtherWorld "void"
      (set_otherWorlds (<["void" := None]> (otherWorlds Sample.game)) Sample.game)
    = Ok g'
    /\ events g'
       = [ onPreStopWorld; World_onStop 1; onPostStopWorld;
           onPreDestroyWorld 1; World_onDestroy 1; onPostDestroyWorld 1 ]
    /\ getWorld g' = None.
Proof.
  destruct (switchToOtherWorld_empty_entry
              (set_otherWorlds (<["void" := None]> (otherWorlds Sample.game))
                               Sample.game) "void"
              (lookup_insert_eq (otherWorlds Sample.game) "void" None))
    as (g' & Hrun & He & Hw & _).
  exists g'. repeat split; assumption.
Defined.

(** X6.  A switch is not a swap.  It removes the one entry it was asked for
    and nothing else: every other entry of the registry is as before, and the
    World that was active is not put into the registry, so the registry has
    exactly one entry less. *)
Theorem switchToOtherWorld_other_entries
    (g : BaseGame) (name : string) (p : option World) (im : InputManager) :
  otherWorlds g !! name = Some p ->
  inputManager g = Some im ->
  exists g',
    switchToOtherWorld name g = Ok g'
    /\ (forall other, other <> name ->
                      otherWorlds g' !! other = otherWorlds g !! other)
    /\ dom (otherWorlds g') = dom (otherWorlds g) ∖ {[name]}
    /\ S (size (otherWorlds g')) = size (otherWorlds g).
Proof.
  intros Hname Him.
  destruct (switchToOtherWorld_run g name p im Hname (or_intror Him))
    as (g' & Hrun & _ & _ & Hreg & _).
  exists g'. split; [done |]. rewrite Hreg.
  split. { intros other Hne. by rewrite lookup_delete_ne. }
  split. { by rewrite dom_delete_L. }
  rewrite <- (insert_delete_id (otherWorlds g) name p Hname) at 2.
  by rewrite map_size_insert_None by apply lookup_delete_eq.
Qed.

Lemma switchToOtherWorld_other_entries_witness :
  exists g',
    switchToOtherWorld "cellar" Sample.game = Ok g'
    /\ S (size (otherWorlds g')) = size (otherWorlds Sample.game).
Proof.
  destruct (switchToOtherWorld_other_entries Sample.game "cellar"
              (Some Sample.cellar) (mkInputManager 1) eq_refl eq_refl)
    as (g' & Hrun & _ & _ & Hsize).
  exists g'. split; assumption.
Defined.

(** X7.  [clearOtherWorldList] drops every cached World without a single
    call: no stop or destroy call is made for them, and the active World
    stays.  Afterwards [switchToOtherWorld] throws [std::out_of_range] for
    every name. *)
Theorem clearOtherWorldList_forgets_all (g : BaseGame) :
  events (clearOtherWorldList g) = events g
  /\ getWorld (clearOtherWorldList g) = getWorld g
  /\ otherWorlds (clearOtherWorldList g) = ∅
  /\ forall name,
       switchToOtherWorld name (clearOtherWorldList g)
       = Throw (out_of_range "No other world by this name")
               (clearOtherWorldList g).
Proof.
  split; [done |]. split; [done |]. split; [done |].
  intros name. unfold switchToOtherWorld.
  cbn [clearOtherWorldList set_otherWorlds otherWorlds].
  by rewrite lookup_empty.
Qed.

(** ** Further properties of the deferred queue *)

(** What [call] leaves alone. *)
Lemma call_frame (t : Task) (g : BaseGame) :
  leaves (call t g) (fun g' =>
    trace g' = trace g ++ [(deferred_called (task_id t), otherWorlds g)]
    /\ otherWorlds g' = otherWorlds g
    /\ postCycleDeferred g' = postCycleDeferred g
    /\ closed g' = closed g
    /\ currentTime g' = currentTime g
    /\ lastUpdate g' = lastUpdate g
    /\ lastRender g' = lastRender g
    /\ sdl_polls g' = sdl_polls g)
  /\ call t g <> Undefined.
Proof.
  unfold call. destruct (task_run t _); cbn; by repeat split.
Qed.

(** The range-for, whatever the closures do: it either visits all of them,
    or is left at the first one that throws. *)
Lemma callAll_cases (ts : list Task) (g : BaseGame) :
  match callAll ts g with
  | Ok g' =>
      trace g' = trace g ++ seen_with (otherWorlds g) (calls ts)
  | Throw e g' =>
      exists pre t post,
        ts = pre ++ t :: post
        /\ e = task_exception (task_id t)
        /\ trace g' = trace g ++ seen_with (otherWorlds g) (calls (pre ++ [t]))
  | Undefined => False
  end
  /\ leaves (callAll ts g) (fun g' =>
       otherWorlds g' = otherWorlds g
       /\ postCycleDeferred g' = postCycleDeferred g
       /\ closed g' = closed g
       /\ currentTime g' = currentTime g
       /\ lastUpdate g' = lastUpdate g
       /\ lastRender g' = lastRender g
       /\ sdl_polls g' = sdl_polls g).
Proof.
  revert g. induction ts as [|t ts IH]; intros g.
  - cbn. by rewrite app_nil_r.
  - cbn [callAll]. destruct (call_frame t g) as [Hc Hdef].
    destruct (call t g) as [g1 | e g1 |] eqn:Hcall; cbn [bind leaves] in *.
    + destruct Hc as (Ht & Hreg & Hq & Hcl & Hct & Hlu & Hlr & Hp).
      destruct (IH g1) as [IH1 IH2].
      destruct (callAll ts g1) as [g' | e g' |]; cbn [leaves] in *.
      * split; [| destruct IH2 as (? & ? & ? & ? & ? & ? & ?);
                  repeat split; congruence].
        rewrite IH1, Ht, Hreg. cbn. by rewrite <- app_assoc.
      * split; [| destruct IH2 as (? & ? & ? & ? & ? & ? & ?);
                  repeat split; congruence].
        destruct IH1 as (pre & u & post & -> & -> & Htr).
        exists (t :: pre), u, post. split; [done |]. split; [done |].
        rewrite Htr, Ht, Hreg. cbn. by rewrite <- app_assoc.
      * done.
    + destruct Hc as (Ht & Hreg & Hq & Hcl & Hct & Hlu & Hlr & Hp).
      split; [| by repeat split].
      exists [], t, ts. split; [done |]. split; [| done].
      unfold call in Hcall. by destruct (task_run t _); inversion Hcall.
    + done.
Qed.

(** X8.  For queued closures that act on the active World and leave the
    queue alone, [postCycle] has two ways out.  If it returns, every closure
    of the queue has been called once, in queue order, the queue is empty,
    and a second [postCycle] does nothing.  If it throws, the exception is
    the one of a queued closure, that closure and those before it have been
    called, and the queue is exactly what it was: [postCycle] clears it only
    after the last closure has returned. *)
Theorem postCycle_outcome (g : BaseGame) :
  match postCycle g with
  | Ok g' =>
      events g' = events g ++ calls (postCycleDeferred g)
      /\ postCycleDeferred g' = []
      /\ postCycle g' = Ok g'
  | Throw e g' =>
      postCycleDeferred g' = postCycleDeferred g
      /\ exists pre t post,
           postCycleDeferred g = pre ++ t :: post
           /\ e = task_exception (task_id t)
           /\ events g' = events g ++ calls pre ++ [deferred_called (task_id t)]
  | Undefined => False
  end.
Proof.
  unfold postCycle at 1.
  destruct (postCycleDeferred g) as [|t ts] eqn:Hq.
  - cbn. rewrite app_nil_r. unfold postCycle. by rewrite Hq.
  - cbn [length Nat.ltb Nat.leb].
    destruct (callAll_cases (t :: ts) g) as [H1 H2].
    destruct (callAll (t :: ts) g) as [g' | e g' |]; cbn [bind leaves] in *.
    + split; [| done].
      change (events g' = events g ++ calls (t :: ts)).
      rewrite (trace_events _ _ _ H1). by rewrite seen_with_events.
    + destruct H2 as (_ & Hq' & _). split; [congruence |].
      destruct H1 as (pre & u & post & Hts & -> & Htr).
      exists pre, u, post. split; [congruence |]. split; [done |].
      rewrite (trace_events _ _ _ Htr). by rewrite seen_with_events, calls_app.
    + done.
Qed.

(** X9.  A closure that throws stays at its place in the queue.  The next
    [postCycle] therefore calls the closures before it a second time, calls
    it again, and throws again; the closures behind it are never reached. *)
Theorem postCycle_throw_repeats
    (g : BaseGame) (pre post : list Task) (t : Task) :
  postCycleDeferred g = pre ++ t :: post ->
  Forall returns pre -> throws t ->
  exists g1 g2,
    postCycle g = Throw (task_exception (task_id t)) g1
    /\ postCycle g1 = Throw (task_exception (task_id t)) g2
    /\ events g2 = events g ++ calls (pre ++ [t]) ++ calls (pre ++ [t])
    /\ postCycleDeferred g2 = pre ++ t :: post.
Proof.
  intros Hq Hpre Ht.
  destruct (postCycle_throws g pre post t Hq Hpre Ht) as (g1 & Hrun1 & Ht1 & Hq1).
  destruct (postCycle_throws g1 pre post t Hq1 Hpre Ht) as (g2 & Hrun2 & Ht2 & Hq2).
  exists g1, g2. repeat (split; [done |]). split; [| done].
  rewrite (trace_events _ _ _ Ht2), (trace_events _ _ _ Ht1).
  by rewrite !seen_with_events, <- app_assoc.
Qed.

Lemma throws_faulty (n : nat) : throws (Sample.faulty n).
Proof. intros w. by exists w. Qed.

Lemma postCycle_throw_repeats_witness :
  exists g1 g2,
    postCycle (deferAll [Sample.quiet 1; Sample.faulty 2; Sample.quiet 3]
                        Sample.game16)
    = Throw (task_exception 2) g1
    /\ postCycle g1 = Throw (task_exception 2) g2
    /\ events g2
       = [ deferred_called 1; deferred_called 2;
           deferred_called 1; deferred_called 2 ].
Proof.
  destruct (postCycle_throw_repeats
              (deferAll [Sample.quiet 1; Sample.faulty 2; Sample.quiet 3]
                        Sample.game16)
              [Sample.quiet 1] [Sample.quiet 3] (Sample.faulty 2) eq_refl)
    as (g1 & g2 & Hrun1 & Hrun2 & He & _).
  - repeat constructor. apply returns_quiet.
  - apply throws_faulty.
  - exists g1, g2. repeat split; assumption.
Defined.

Lemma postCycle_frame (g : BaseGame) :
  leaves (postCycle g) (fun g' =>
    otherWorlds g' = otherWorlds g
    /\ closed g' = closed g
    /\ currentTime g' = currentTime g
    /\ lastUpdate g' = lastUpdate g
    /\ lastRender g' = lastRender g
    /\ sdl_polls g' = sdl_polls g)
  /\ postCycle g <> Undefined.
Proof.
  unfold postCycle.
  destruct (0 <? length (postCycleDeferred g))%nat; [| by cbn].
  destruct (callAll_cases (postCycleDeferred g) g) as [H1 H2].
  destruct (callAll (postCycleDeferred g) g) as [g' | e g' |];
    cbn [bind leaves] in *; [| | done].
  - destruct H2 as (? & ? & ? & ? & ? & ? & ?). by repeat split.
  - destruct H2 as (? & ? & ? & ? & ? & ? & ?). by repeat split.
Qed.

(** ** Further properties of the frame loop *)

(** One iteration up to the flush, with the timestamps. *)
Lemma cycle_clock_before_flush (g : BaseGame) (w : World) r i
    (in_events in_update in_render : list Task) :
  world g = Some w -> renderer g = Some r -> imguiRenderer g = Some i ->
  exists g3,
    cycle in_events in_update in_render g = postCycle g3
    /\ currentTime g3 = Num.wrap32 (sdl_clock g (sdl_polls g))
    /\ lastUpdate g3 = Num.wrap32 (sdl_clock g (sdl_polls g))
    /\ lastRender g3 = Num.wrap32 (sdl_clock g (sdl_polls g))
    /\ sdl_polls g3 = S (sdl_polls g).
Proof.
  intros Hw Hr Hi. unfold cycle. rewrite deferAll_queue.
  set (g0 := set_postCycleDeferred _ (preCycle g)).
  destruct (update_run g0 w Hw)
    as (g1 & -> & _ & Hct1 & Hlu1 & _ & Hp1 & _ & Hw1 & _ & Hr1 & Hi1 & _).
  cbn [bind]. rewrite deferAll_queue.
  set (g1' := set_postCycleDeferred _ g1).
  assert (Hr1' : renderer g1' = Some r) by (cbn; rewrite Hr1; exact Hr).
  assert (Hi1' : imguiRenderer g1' = Some i) by (cbn; rewrite Hi1; exact Hi).
  destruct (render_run g1' w r i Hw1 Hr1' Hi1')
    as (g2 & w' & -> & _ & _ & _ & _ & _ & Hlr2 & Hct2 & Hlu2 & Hp2 & _).
  cbn [bind]. rewrite deferAll_queue.
  eexists. split; [reflexivity |]. cbn.
  rewrite Hlr2, Hct2, Hlu2, Hp2. cbn. rewrite Hct1, Hlu1, Hp1. by cbn.
Qed.

(** X10.  A loop iteration reads the clock exactly once, in update.  However
    it ends, by returning or by a deferred closure throwing, [currentTime],
    [lastUpdate] and [lastRender] all hold that one reading afterwards. *)
Theorem cycle_timestamps_agree (g : BaseGame) (w : World) r i
    (in_events in_update in_render : list Task) :
  world g = Some w -> renderer g = Some r -> imguiRenderer g = Some i ->
  cycle in_events in_update in_render g <> Undefined
  /\ leaves (cycle in_events in_update in_render g) (fun g' =>
       currentTime g' = Num.wrap32 (sdl_clock g (sdl_polls g))
       /\ lastUpdate g' = Num.wrap32 (sdl_clock g (sdl_polls g))
       /\ lastRender g' = Num.wrap32 (sdl_clock g (sdl_polls g))
       /\ sdl_polls g' = S (sdl_polls g)).
Proof.
  intros Hw Hr Hi.
  destruct (cycle_clock_before_flush g w r i in_events in_update in_render
              Hw Hr Hi) as (g3 & -> & Hct & Hlu & Hlr & Hp).
  destruct (postCycle_frame g3) as [Hframe Hdef]. split; [done |].
  destruct (postCycle g3) as [g' | e g' |]; cbn [leaves] in *; [| | done];
    destruct Hframe as (_ & _ & ? & ? & ? & ?); repeat split; congruence.
Qed.

Lemma cycle_timestamps_agree_witness :
  leaves (cycle [] [Sample.faulty 1] [] Sample.game16) (fun g' =>
    currentTime g' = 16 /\ lastUpdate g' = 16 /\ lastRender g' = 16
    /\ sdl_polls g' = 1%nat).
Proof.
  exact (proj2 (cycle_timestamps_agree Sample.game16 Sample.lobby
                  (mkRenderer 1 true true) (mkImguiRenderer 1)
                  [] [Sample.faulty 1] [] eq_refl eq_refl eq_refl)).
Defined.

Lemma to_int_mod (z : Z) : Num.wrap32 (Num.to_int z) = Num.wrap32 z.
Proof.
  unfold Num.to_int, Num.wrap32.
  destruct (Z.ltb_spec (z mod 2^32) (2^31)).
  - apply Z.mod_mod. lia.
  - rewrite <- (Z.mod_add _ 1) by lia.
    replace (z mod 2^32 - 2^32 + 1 * 2^32) with (z mod 2^32) by lia.
    apply Z.mod_mod. lia.
Qed.

(** X11.  Consecutive updates measure back-to-back intervals: the second
    update advances the World from the first update's clock reading, not
    from any earlier timestamp, and the two amounts add up, modulo 2^32, to
    the time between the old timestamp and the second reading. *)
Theorem update_twice (g : BaseGame) (w : World) :
  world g = Some w ->
  exists g1 g2,
    update g = Ok g1
    /\ update g1 = Ok g2
    /\ events g2
       = events g
         ++ update_calls w (Num.wrap32 (sdl_clock g (sdl_polls g))) (lastUpdate g)
         ++ update_calls w (Num.wrap32 (sdl_clock g (S (sdl_polls g))))
                           (Num.wrap32 (sdl_clock g (sdl_polls g)))
    /\ Num.wrap32
         (Num.to_int (Num.wrap32 (sdl_clock g (sdl_polls g)) - lastUpdate g)
          + Num.to_int (Num.wrap32 (sdl_clock g (S (sdl_polls g)))
                        - Num.wrap32 (sdl_clock g (sdl_polls g))))
       = Num.wrap32 (Num.wrap32 (sdl_clock g (S (sdl_polls g))) - lastUpdate g).
Proof.
  intros Hw.
  destruct (update_run g w Hw)
    as (g1 & Hrun1 & Ht1 & _ & Hlu1 & _ & Hp1 & Hck1 & Hw1 & _).
  destruct (update_run g1 w Hw1) as (g2 & Hrun2 & Ht2 & _).
  exists g1, g2. repeat (split; [done |]). split.
  - rewrite (trace_events _ _ _ Ht2), (trace_events _ _ _ Ht1).
    rewrite !seen_with_events, Hlu1, Hp1, Hck1. by rewrite <- app_assoc.
  - clear. generalize (Num.wrap32 (sdl_clock g (sdl_polls g))) as T1.
    generalize (Num.wrap32 (sdl_clock g (S (sdl_polls g)))) as T2.
    intros T2 T1.
    pose proof (to_int_mod (T1 - lastUpdate g)) as Ha.
    pose proof (to_int_mod (T2 - T1)) as Hb.
    unfold Num.wrap32 in Ha, Hb |- *.
    rewrite Z.add_mod, Ha, Hb, <- Z.add_mod by lia. f_equal. lia.
Qed.

Lemma update_twice_witness :
  exists g1 g2,
    update Sample.game16 = Ok g1
    /\ update g1 = Ok g2
    /\ events g2
       = [ SDL_GetTicks_returned 16; SoundManager_update 1;
           World_update 1 (msec 16);
           SDL_GetTicks_returned 16; SoundManager_update 1;
           World_update 1 (msec 0) ].
Proof.
  destruct (update_twice Sample.game16 Sample.lobby eq_refl)
    as (g1 & g2 & Hrun1 & Hrun2 & He & _).
  exists g1, g2. repeat split; assumption.
Defined.

(** X12.  The update survives the wrap-around of the 32-bit millisecond
    counter: if the clock reads what the last timestamp plus [d] is modulo
    2^32, with [0 <= d < 2^31], the World is advanced by exactly [d], also
    when the reading is smaller than the timestamp. *)
Theorem update_across_wraparound (g : BaseGame) (w : World) (d : Z) :
  world g = Some w ->
  0 <= d < 2^31 ->
  Num.wrap32 (sdl_clock g (sdl_polls g)) = Num.wrap32 (lastUpdate g + d) ->
  exists g',
    update g = Ok g'
    /\ events g'
       = events g
         ++ [ SDL_GetTicks_returned (Num.wrap32 (lastUpdate g + d));
              SoundManager_update (world_id w);
              World_update (world_id w) (msec d) ]
    /\ lastUpdate g' = Num.wrap32 (lastUpdate g + d).
Proof.
  intros Hw Hd Hclock.
  destruct (update_run g w Hw) as (g' & Hrun & Ht & _ & Hlu & _).
  exists g'. split; [done |]. split; [| congruence].
  rewrite (trace_events _ _ _ Ht), seen_with_events. unfold update_calls.
  rewrite Hclock.
  assert (He : Num.to_int (Num.wrap32 (lastUpdate g + d) - lastUpdate g) = d).
  { unfold Num.to_int.
    assert (Hm : Num.wrap32 (Num.wrap32 (lastUpdate g + d) - lastUpdate g) = d).
    { unfold Num.wrap32. rewrite Zminus_mod_idemp_l.
      replace (lastUpdate g + d - lastUpdate g) with d by lia.
      apply Z.mod_small. lia. }
    rewrite Hm. destruct (Z.ltb_spec d (2^31)); lia. }
  by rewrite He.
Qed.

Lemma update_across_wraparound_witness :
  exists g',
    update Boot.wrapping = Ok g'
    /\ events g'
       = [ SDL_GetTicks_returned 16; SoundManager_update 1;
           World_update 1 (msec 22) ]
    /\ lastUpdate g' = 16.
Proof.
  destruct (update_across_wraparound Boot.wrapping Sample.lobby 22 eq_refl)
    as (g' & Hrun & He & Hlu).
  - lia.
  - reflexivity.
  - exists g'. repeat split; assumption.
Defined.

(** X13.  [render] sets the whole camera anew from the player and the
    window: the projection is a perspective one and the orientation is the
    player's head orientation, whatever the camera was before.  A second
    [render] with nothing moved in between leaves the World exactly as the
    first one left it. *)
Theorem render_twice (g : BaseGame) (w : World) r i :
  world g = Some w -> renderer g = Some r -> imguiRenderer g = Some i ->
  exists g1 g2 w1,
    render g = Ok g1
    /\ render g1 = Ok g2
    /\ getWorld g1 = Some w1
    /\ getWorld g2 = Some w1
    /\ perspective (camera w1) = true
    /\ cam_orientation (camera w1) = getHeadOrientation (getPlayer w).
Proof.
  intros Hw Hr Hi.
  destruct (render_world g w r i Hw Hr Hi) as (g1 & Hrun1 & Hw1 & Hwin1 & Hr1 & Hi1).
  destruct (render_world g1 _ r i Hw1 ltac:(congruence) ltac:(congruence))
    as (g2 & Hrun2 & Hw2 & _).
  exists g1, g2. eexists. repeat (split; [done |]).
  split; [| done]. unfold getWorld. rewrite Hw2, Hwin1. reflexivity.
Qed.

Lemma render_twice_witness :
  exists g1 g2 w1,
    render Sample.game16 = Ok g1
    /\ render g1 = Ok g2
    /\ getWorld g1 = Some w1
    /\ getWorld g2 = Some w1
    /\ perspective (camera w1) = true.
Proof.
  destruct (render_twice Sample.game16 Sample.lobby (mkRenderer 1 true true)
              (mkImguiRenderer 1) eq_refl eq_refl eq_refl)
    as (g1 & g2 & w1 & H1 & H2 & H3 & H4 & H5 & _).
  exists g1, g2, w1. repeat split; assumption.
Defined.

Lemma fdiv_zero (x : Num.float) : not_finite (Num.fdiv x (Num.of_int 0)).
Proof. by destruct x. Qed.

(** X14.  A window of height 0 does not make [render] fail: the aspect is
    the result of a [float] division by zero, an infinity or NaN, and that
    is what the camera gets. *)
Theorem render_zero_height (g : BaseGame) (w : World) r i :
  world g = Some w -> renderer g = Some r -> imguiRenderer g = Some i ->
  viewportHeight (window g) = 0 ->
  exists g' w',
    render g = Ok g'
    /\ getWorld g' = Some w'
    /\ not_finite (aspect (camera w')).
Proof.
  intros Hw Hr Hi Hh.
  destruct (render_world g w r i Hw Hr Hi) as (g' & Hrun & Hw' & _).
  exists g'. eexists. split; [done |]. split; [exact Hw' |].
  cbn [with_camera camera aspect]. rewrite Hh. apply fdiv_zero.
Qed.

Lemma render_zero_height_witness :
  exists g' w',
    render Boot.flat = Ok g'
    /\ getWorld g' = Some w'
    /\ aspect (camera w') = S754_infinity false.
Proof.
  destruct (render_world Boot.flat Sample.lobby (mkRenderer 1 true true)
              (mkImguiRenderer 1) eq_refl eq_refl eq_refl)
    as (g0 & Hrun0 & Hw0 & _).
  destruct (render_zero_height Boot.flat Sample.lobby (mkRenderer 1 true true)
              (mkImguiRenderer 1) eq_refl eq_refl eq_refl eq_refl)
    as (g' & w' & Hrun & Hw & _).
  exists g', w'. split; [exact Hrun |]. split; [exact Hw |].
  assert (g0 = g') as -> by congruence.
  unfold getWorld in Hw. rewrite Hw0 in Hw. injection Hw as <-.
  vm_compute. reflexivity.
Defined.

(** ** Further properties of the teardown *)

Lemma leaves_bind (r : result) (k : BaseGame -> result) (P Q : BaseGame -> Prop) :
  leaves r P ->
  (forall e g, r = Throw e g -> P g -> Q g) ->
  (forall g, r = Ok g -> P g -> leaves (k g) Q) ->
  leaves (r >>= k) Q.
Proof. destruct r; cbn; eauto. Qed.

Lemma update_no_world (g : BaseGame) : world g = None -> update g = Undefined.
Proof. intros Hw. unfold update. cbn. by rewrite Hw. Qed.

Lemma render_no_world (g : BaseGame) : world g = None -> render g = Undefined.
Proof. intros Hw. unfold render, prepareCamera. by rewrite Hw. Qed.

(** What [setWorld] leaves alone. *)
Lemma setWorld_frame (newWorld : WorldRef) (g : BaseGame) :
  leaves (setWorld newWorld g) (fun g' =>
    closed g' = closed g
    /\ postCycleDeferred g' = postCycleDeferred g
    /\ currentTime g' = currentTime g
    /\ lastUpdate g' = lastUpdate g
    /\ lastRender g' = lastRender g
    /\ sdl_polls g' = sdl_polls g
    /\ imguiRenderer g' = imguiRenderer g).
Proof.
  destruct (stopAndDestroy_frame g)
    as (_ & _ & _ & Hi & _ & Hq & Hct & Hlu & Hlr & Hcl & Hp).
  unfold setWorld, rebuildAndStart.
  set (g1 := stopAndDestroy g) in *.
  assert (Hk : closed (takeOwnership newWorld g1) = closed g1
               /\ postCycleDeferred (takeOwnership newWorld g1) = postCycleDeferred g1
               /\ currentTime (takeOwnership newWorld g1) = currentTime g1
               /\ lastUpdate (takeOwnership newWorld g1) = lastUpdate g1
               /\ lastRender (takeOwnership newWorld g1) = lastRender g1
               /\ sdl_polls (takeOwnership newWorld g1) = sdl_polls g1
               /\ imguiRenderer (takeOwnership newWorld g1) = imguiRenderer g1)
    by by destruct newWorld.
  destruct Hk as (? & ? & ? & ? & ? & ? & ?).
  generalize dependent (takeOwnership newWorld g1). intros g2 ? ? ? ? ? ? ?.
  destruct (world g2) as [w|]; cbn.
  - destruct (inputManager g2); cbn; [| done]. repeat split; congruence.
  - repeat split; congruence.
Qed.

(** X15.  [cleanUp] always returns, with or without an active World.  It
    retires the active World if there is one, closes the window and runs the
    script; afterwards no World is active, so that neither [update] nor
    [render] has defined behaviour any more.  It does not touch the cached
    Worlds, the deferred queue or the closed flag: [isRunning] answers after
    [cleanUp] what it answered before. *)
Theorem cleanUp_always_returns (g : BaseGame) :
  exists g',
    cleanUp g = Ok g'
    /\ events g'
       = events g ++ retirement_of (world g)
                  ++ [Window_close; Chai_puts "Hello Bob!"]
    /\ getWorld g' = None
    /\ otherWorlds g' = otherWorlds g
    /\ postCycleDeferred g' = postCycleDeferred g
    /\ isRunning g' = isRunning g
    /\ update g' = Undefined
    /\ render g' = Undefined.
Proof.
  destruct (setWorld_general (Temporary None) g (mkInputManager 0)
              (or_introl eq_refl))
    as (g1 & Hrun & Ht & Hw & Hreg & _ & Hq & _).
  pose proof (setWorld_frame (Temporary None) g) as Hframe.
  rewrite Hrun in Hframe. cbn [leaves] in Hframe.
  destruct Hframe as (Hcl & _).
  cbn [deref activation_of moved_from] in Ht, Hw, Hreg.
  rewrite seen_with_nil, app_nil_r in Ht.
  unfold cleanUp, removeHook. rewrite Hrun. cbn [bind].
  eexists. split; [reflexivity |].
  split.
  { rewrite !events_emit, (trace_events _ _ _ Ht), seen_with_events.
    by rewrite <- !app_assoc. }
  split; [exact Hw |]. split; [exact Hreg |]. split; [exact Hq |].
  split. { unfold isRunning. cbn. by rewrite Hcl. }
  split; [by apply update_no_world | by apply render_no_world].
Qed.

(** ** Start-up and shut-down *)

(** The log copies exactly the calls a member function added to the trace. *)
Lemma newer_app (b b' : BaseGame) l :
  trace b' = trace b ++ l -> newer b b' = Core <$> l.*1.
Proof.
  intros Ht. unfold newer, events. rewrite Ht, fmap_app.
  by rewrite drop_app_length' by by rewrite length_fmap.
Qed.

Lemma with_base_same (G : Game) : with_base (base G) G = G.
Proof.
  unfold with_base. rewrite (newer_app _ _ []) by by rewrite app_nil_r.
  cbn. rewrite app_nil_r. by destruct G.
Qed.

Lemma createWorld_trace (w : World) (g : BaseGame) :
  trace (createWorld w g).2 = trace g ++ seen_with (otherWorlds g) (create_calls w).
Proof. unfold createWorld. cbn. by rewrite <- !app_assoc. Qed.

Lemma createWindow_run G :
  createWindow G
  = set_log (log G ++ [Window_create (c_str (windowTitle G));
                       if getCursorVisibility (config (base G))
                       then Window_unlockMouse else Window_lockMouse]) G.
Proof.
  unfold createWindow. cbn.
  destruct (getCursorVisibility (config (base G))); cbn;
    unfold say, set_log; cbn; by rewrite <- app_assoc.
Qed.

(** The window gets the title as a C string: an embedded NUL ends it. *)
Lemma createWindow_title_up_to_nul :
  log (createWindow Boot.nul_title) = [Window_create "Radix"; Window_lockMouse].
Proof. vm_compute. reflexivity. Qed.

(** Name the result of the [createWorld] call in the goal, together with
    what it leaves alone. *)
Ltac open_createWorld fw g :=
  match goal with
       | |- context [createWorld fw ?b0] =>
           pose proof (createWorld_trace fw b0) as Hcw;
           assert (Hw : (createWorld fw b0).1 = (createWorld fw g).1)
             by reflexivity;
           assert (Hf : inputManager (createWorld fw b0).2 = inputManager b0
                        /\ world (createWorld fw b0).2 = world b0
                        /\ otherWorlds (createWorld fw b0).2 = otherWorlds b0
                        /\ renderer (createWorld fw b0).2 = renderer b0
                        /\ imguiRenderer (createWorld fw b0).2 = imguiRenderer b0
                        /\ config (createWorld fw b0).2 = config b0
                        /\ window (createWorld fw b0).2 = window b0
                        /\ sdl_clock (createWorld fw b0).2 = sdl_clock b0
                        /\ sdl_polls (createWorld fw b0).2 = sdl_polls b0
                        /\ closed (createWorld fw b0).2 = closed b0
                        /\ postCycleDeferred (createWorld fw b0).2
                           = postCycleDeferred b0)
             by (by repeat split);
           destruct (createWorld fw b0) as [nw b] eqn:E
       end.

(** [setup] up to [setWorld]: the new world is the fw one after
    [createWorld]; the game has an InputManager, zeroed timestamps, and the
    calls made so far in its log. *)
Lemma setup_world_run (fw : World) (G : Game) :
  exists b,
    setup_world fw G
    = ((createWorld fw (base G)).1,
       mkGame b (windowTitle G) (defaultMap G) (dataDir G) (screenRenderer G)
         (log G
          ++ (if isConsoleEnabled (config (base G)) then [GameConsole_run] else [])
          ++ [ SoundManager_init; Window_create (c_str (windowTitle G));
               if getCursorVisibility (config (base G)) then Window_unlockMouse
               else Window_lockMouse ]
          ++ (match inputManager (base G) with
              | None => [InputManager_new] | Some _ => [] end)
          ++ [ World_new (world_id fw) ]
          ++ (Core <$> create_calls fw)
          ++ [ MapLoader_load (world_id fw) (map_path G) ]))
    /\ trace b = trace (base G)
                 ++ seen_with (otherWorlds (base G)) (create_calls fw)
    /\ inputManager b
       = Some (default (mkInputManager 0) (inputManager (base G)))
    /\ lastUpdate b = 0 /\ lastRender b = 0
    /\ world b = world (base G)
    /\ otherWorlds b = otherWorlds (base G)
    /\ renderer b = renderer (base G)
    /\ imguiRenderer b = imguiRenderer (base G)
    /\ config b = config (base G)
    /\ window b = window (base G)
    /\ sdl_clock b = sdl_clock (base G)
    /\ sdl_polls b = sdl_polls (base G)
    /\ closed b = closed (base G)
    /\ postCycleDeferred b = postCycleDeferred (base G).
Proof.
  destruct G as [g title dmap ddir sr lg].
  unfold setup_world, initHook, customTriggerHook.
  rewrite !with_base_same, createWindow_run.
  cbn [base windowTitle defaultMap dataDir screenRenderer log].
  destruct (isConsoleEnabled (config g)) eqn:Hcon;
    destruct (inputManager g) as [im|] eqn:Him;
    cbn [say set_log set_base base windowTitle defaultMap dataDir
         screenRenderer log inputManager set_inputManager config];
    rewrite ?Him;
    cbn [say set_log set_base base windowTitle defaultMap dataDir
         screenRenderer log inputManager set_inputManager config].
  all: open_createWorld fw g.
  all: cbn [fst snd] in *.
  all: destruct Hf as (? & ? & ? & ? & ? & ? & ? & ? & ? & ? & ?).
  all: assert (Hid : world_id nw = world_id fw)
         by (change nw with (nw, b).1; rewrite <- E; reflexivity).
  all: unfold loadMap, with_base;
       cbn [say set_log set_base base windowTitle defaultMap dataDir
            screenRenderer log config set_lastRender set_lastUpdate].
  all: rewrite (newer_app _ _ _ Hcw), seen_with_events.
  all: cbn [config set_inputManager] in *.
  all: exists (set_lastRender 0 (set_lastUpdate 0 b)).
  all: split;
         [| cbn in *; rewrite ?Him; cbn; repeat split; congruence].
  all: unfold map_path;
       cbn [base config dataDir defaultMap]; rewrite H4, Hid.
  all: try (rewrite <- Hw).
  all: destruct (0 <? String.length (getMap (config g)))%nat;
         [| destruct (0 <? String.length (getMapPath (config g)))%nat];
         cbv [say set_log set_base base log windowTitle defaultMap dataDir
              screenRenderer];
         do 2 f_equal; rewrite <- ?app_assoc; reflexivity.
Qed.

(** Evaluate the updates of the extended record, innermost first. *)
Ltac game_norm :=
  cbv beta iota delta
      [say set_log set_base set_screenRenderer with_base then_
       base windowTitle defaultMap dataDir screenRenderer log].

(** [setup] as a whole: it returns, and this is the game it leaves. *)
Lemma setup_run (fw : World) (G : Game) :
  exists G',
    setup fw G = Done G'
    /\ log G' = log G ++ setup_calls fw G
    /\ world (base G') = Some (createWorld fw (base G)).1
    /\ renderer (base G') = Some (mkRenderer (world_id fw) true true)
    /\ imguiRenderer (base G') = Some (mkImguiRenderer (world_id fw))
    /\ inputManager (base G')
       = Some (mkInputManager
                 (S (init_count (default (mkInputManager 0)
                                         (inputManager (base G))))))
    /\ screenRenderer G' = Some (mkScreenRenderer (world_id fw))
    /\ lastUpdate (base G') = 0
    /\ lastRender (base G') = 0
    /\ otherWorlds (base G') = otherWorlds (base G)
    /\ postCycleDeferred (base G') = postCycleDeferred (base G)
    /\ closed (base G') = closed (base G).
Proof.
  destruct (setup_world_run fw G)
    as (b & Hsw & Htb & Himb & Hlu & Hlr & Hwb & Hregb & Hrb & Hib & Hcb & _
          & _ & _ & Hclb & Hqb).
  unfold setup. rewrite Hsw. clear Hsw.
  unfold setup_calls.
  destruct G as [g title dmap ddir sr lg].
  cbn [base windowTitle defaultMap dataDir screenRenderer log] in *.
  set (nw := (createWorld fw g).1).
  assert (Hid : world_id nw = world_id fw) by reflexivity.
  clearbody nw.
  destruct (setWorld_general (Temporary (Some nw)) b
              (default (mkInputManager 0) (inputManager g))
              (or_intror Himb))
    as (g' & Hrun & Ht & Hw & Hreg & Hi & Hq & Hr & Him).
  pose proof (setWorld_frame (Temporary (Some nw)) b) as Hframe.
  rewrite Hrun in Hframe. cbn [leaves] in Hframe.
  destruct Hframe as (Hcl & _ & _ & Hlu' & Hlr' & _).
  cbn [deref moved_from activation_of] in Ht, Hw, Hreg, Hr, Him.
  rewrite Hrun.
  unfold setup_wired, createScreenshotCallbackHolder.
  game_norm. rewrite Hw. game_norm. rewrite Hw, Hr.
  eexists. split; [reflexivity |].
  game_norm.
  cbn [set_imguiRenderer world renderer imguiRenderer inputManager lastUpdate
       lastRender otherWorlds postCycleDeferred closed].
  split.
  { rewrite (newer_app _ _ _ Ht), fmap_app, !seen_with_events.
    unfold rebuild, start. rewrite Hwb, !Hid, <- !app_assoc. reflexivity. }
  rewrite Hid. repeat split; congruence.
Qed.

Lemma setup_since (fw : World) (G G' : Game) :
  log G' = log G ++ setup_calls fw G ->
  drop (length (log G)) (log G') = setup_calls fw G.
Proof. intros ->. apply drop_app_length. Qed.

(** X16.  [setup] dereferences no empty pointer, whatever the state of the
    game: it creates the InputManager if there is none before [setWorld]
    calls it, and the World and the renderer exist when it builds the ImGui
    and screen renderers on them.  Whenever it returns, the World, the
    renderer, the ImGui renderer and the InputManager all exist, so that
    [update], [render] and the destructor have defined behaviour. *)
Theorem setup_makes_game_ready (fw : World) (G : Game) :
  setup fw G <> Unspecified
  /\ forall G',
       setup fw G = Done G' ->
       is_Some (getWorld (base G'))
       /\ is_Some (renderer (base G'))
       /\ is_Some (imguiRenderer (base G'))
       /\ is_Some (inputManager (base G'))
       /\ (exists g1 g2, update (base G') = Ok g1 /\ render g1 = Ok g2)
       /\ exists G'', destructor G' = Done G''.
Proof.
  destruct (setup_run fw G) as (G1 & Hrun & _ & Hw & Hr & Hi & Him & _).
  rewrite Hrun. split; [done |].
  intros G' [= <-].
  destruct (update_run (base G1) _ Hw)
    as (g1 & Hrun1 & _ & _ & _ & _ & _ & _ & Hw1 & _ & Hr1 & Hi1 & _).
  destruct (render_run g1 _ (mkRenderer (world_id fw) true true)
              (mkImguiRenderer (world_id fw)) Hw1
              ltac:(congruence) ltac:(congruence))
    as (g2 & w' & Hrun2 & _).
  unfold getWorld. rewrite Hw, Hr, Hi, Him.
  repeat (split; [by eauto |]).
  unfold destructor. cbv zeta.
  destruct (isProfilerEnabled (config (base G1))); cbn; rewrite Hi; eauto.
Qed.

Lemma setup_makes_game_ready_witness :
  exists G' g1 g2,
    setup Sample.lobby Boot.app = Done G'
    /\ update (base G') = Ok g1
    /\ render g1 = Ok g2.
Proof.
  destruct (setup Sample.lobby Boot.app) as [G1 | e G1 |] eqn:Hrun.
  - destruct (proj2 (setup_makes_game_ready Sample.lobby Boot.app) _ Hrun)
      as (_ & _ & _ & _ & (g1 & g2 & Hrun1 & Hrun2) & _).
    exists G1, g1, g2. by repeat split.
  - exfalso. revert Hrun. vm_compute. discriminate.
  - exfalso. revert Hrun. vm_compute. discriminate.
Defined.

(** X17.  [setup] keeps an InputManager that is already there (one a
    subclass made in its own code) and only initialises it once more; it
    creates one, and initialises it once, only when there is none. *)
Theorem setup_keeps_input_manager (fw : World) (G : Game) :
  exists G',
    setup fw G = Done G'
    /\ match inputManager (base G) with
       | Some im =>
           inputManager (base G') = Some (mkInputManager (S (init_count im)))
           /\ InputManager_new ∉ drop (length (log G)) (log G')
       | None =>
           inputManager (base G') = Some (mkInputManager 1)
           /\ InputManager_new ∈ drop (length (log G)) (log G')
       end.
Proof.
  destruct (setup_run fw G) as (G' & Hrun & Hlog & _ & _ & _ & Him & _).
  exists G'. split; [done |].
  rewrite (setup_since _ _ _ Hlog). unfold setup_calls.
  destruct (inputManager (base G)) as [im|]; (split; [done |]).
  - rewrite !not_elem_of_app. repeat split.
    + destruct (isConsoleEnabled _); [not_listed | apply not_elem_of_nil].
    + destruct (getCursorVisibility _); not_listed.
    + apply not_elem_of_nil.
    + not_listed.
    + intros (e & He & _)%list_elem_of_fmap. discriminate He.
    + not_listed.
    + intros (e & He & _)%list_elem_of_fmap. discriminate He.
    + not_listed.
  - rewrite !elem_of_app. right. right. left. apply list_elem_of_here.
Qed.

(** X18.  [setup] sets [lastUpdate] to 0.  The first [update] after it
    therefore advances the World by the clock reading itself, that is by the
    whole time since the clock started, map loading included, and not by the
    time since [setup] ended. *)
Theorem first_update_after_setup (fw : World) (G : Game) :
  exists G' g1,
    setup fw G = Done G'
    /\ lastUpdate (base G') = 0
    /\ update (base G') = Ok g1
    /\ events g1
       = events (base G')
         ++ [ SDL_GetTicks_returned
                (Num.wrap32 (sdl_clock (base G') (sdl_polls (base G'))));
              SoundManager_update (world_id fw);
              World_update (world_id fw)
                (msec (Num.to_int
                         (Num.wrap32 (sdl_clock (base G') (sdl_polls (base G')))))) ]
    /\ (Num.wrap32 (sdl_clock (base G') (sdl_polls (base G'))) < 2^31 ->
        Num.to_int (Num.wrap32 (sdl_clock (base G') (sdl_polls (base G'))))
        = Num.wrap32 (sdl_clock (base G') (sdl_polls (base G')))).
Proof.
  destruct (setup_run fw G) as (G' & Hrun & _ & Hw & _ & _ & _ & _ & Hlu & _).
  destruct (update_run (base G') _ Hw) as (g1 & Hrun1 & Ht & _).
  exists G', g1. repeat (split; [done |]). split.
  - rewrite (trace_events _ _ _ Ht), seen_with_events. unfold update_calls.
    rewrite Hlu, Z.sub_0_r. reflexivity.
  - intros Hlt. apply to_int_small. split; [| done].
    unfold Num.wrap32. apply Z.mod_pos_bound. lia.
Qed.

Lemma first_update_after_setup_witness :
  exists G' g1,
    setup Sample.lobby Boot.app = Done G'
    /\ update (base G') = Ok g1
    /\ World_update 1 (msec 16) ∈ events g1.
Proof.
  destruct (first_update_after_setup Sample.lobby Boot.app)
    as (G' & g1 & Hrun & _ & Hrun1 & He & Hsmall).
  exists G', g1. split; [exact Hrun |]. split; [exact Hrun1 |].
  assert (HG : G' = match setup Sample.lobby Boot.app with
                    | Done X => X | _ => Boot.app end) by (by rewrite Hrun).
  assert (Hnow : Num.wrap32 (sdl_clock (base G') (sdl_polls (base G'))) = 16)
    by (rewrite HG; vm_compute; reflexivity).
  rewrite Hnow in He, Hsmall. rewrite He, (Hsmall ltac:(lia)).
  rewrite elem_of_app, !elem_of_cons. right. right. right. by left.
Defined.

(** X19.  The calls of [setup] come in this order: console (if enabled),
    sound, window creation (with the title as a C string, that is up to its
    first NUL) and mouse lock, creation of the InputManager (if there is
    none), construction of the new World, the nine calls of [createWorld],
    the map load, the retirement of a World that was active, renderer
    rebuild and the start calls of the new World, registration of the
    screenshot observer, the ImGui and screen renderers, and finally
    [postSetup].  In particular the map is loaded after the post-create hook
    and before [onStart], and an old World is retired only after the new one
    is created and loaded. *)
Theorem setup_call_order (fw : World) (G : Game) :
  exists G',
    setup fw G = Done G'
    /\ drop (length (log G)) (log G') = setup_calls fw G
    /\ getWorld (base G') = Some (createWorld fw (base G)).1
    /\ getScreenRenderer G' = Some (mkScreenRenderer (world_id fw)).
Proof.
  destruct (setup_run fw G) as (G' & Hrun & Hlog & Hw & _ & _ & _ & Hsr & _).
  exists G'. split; [done |]. split; [by apply setup_since |]. by split.
Qed.

(** X20.  The destructor calls [imguiRenderer->shutdown()] without a test:
    its behaviour is undefined exactly when there is no ImGui renderer, as
    in a game that was never set up.  When it is defined it never throws and
    makes no lifecycle call: a World that is still active gets neither
    [onStop] nor [onDestroy], and the game object is as it was. *)
Theorem destructor_needs_imgui (G : Game) :
  match destructor G with
  | Done G' =>
      is_Some (imguiRenderer (base G))
      /\ base G' = base G
      /\ drop (length (log G)) (log G')
         = (if isProfilerEnabled (config (base G)) then [Profiler_stopListen]
            else [])
           ++ [ScreenshotCallbackHolder_removeThis; ImguiRenderer_shutdown]
  | Thrown _ _ => False
  | Unspecified => imguiRenderer (base G) = None
  end.
Proof.
  unfold destructor. cbv zeta.
  destruct G as [g title dmap ddir sr lg].
  cbn [base config].
  destruct (isProfilerEnabled (config g)); cbn;
    destruct (imguiRenderer g) eqn:Hi; cbn; rewrite ?Hi; try done;
    (split; [by eauto |]); (split; [done |]);
    rewrite <- ?app_assoc; apply drop_app_length.
Qed.

Lemma length_zero_empty (s : string) :
  (0 <? String.length s)%nat = false <-> s = "".
Proof. destruct s; cbn; split; congruence. Qed.

(** X21.  [loadMap] makes exactly one load call and changes nothing in the
    game object.  A configured map name wins over a configured map path; the
    name and the default map are looked up under the data directory, the
    path is used as it is; the default map is loaded only when neither is
    configured. *)
Theorem loadMap_precedence (w : World) (G : Game) :
  base (loadMap w G) = base G
  /\ exists path,
       log (loadMap w G) = log G ++ [MapLoader_load (world_id w) path]
       /\ (getMap (config (base G)) <> "" ->
           path = dataDir G +:+ getMap (config (base G)))
       /\ (getMap (config (base G)) = "" ->
           getMapPath (config (base G)) <> "" ->
           path = getMapPath (config (base G)))
       /\ (getMap (config (base G)) = "" ->
           getMapPath (config (base G)) = "" ->
           path = dataDir G +:+ defaultMap G).
Proof.
  unfold loadMap. cbv zeta.
  destruct (0 <? String.length (getMap (config (base G))))%nat eqn:Hm;
    [| destruct (0 <? String.length (getMapPath (config (base G))))%nat eqn:Hp].
  - split; [done |]. eexists. split; [reflexivity |].
    assert (getMap (config (base G)) <> "").
    { intros He. apply length_zero_empty in He. congruence. }
    by repeat split.
  - apply length_zero_empty in Hm. split; [done |].
    eexists. split; [reflexivity |].
    assert (getMapPath (config (base G)) <> "").
    { intros He. apply length_zero_empty in He. congruence. }
    by repeat split.
  - apply length_zero_empty in Hm, Hp. split; [done |].
    eexists. split; [reflexivity |].
    rewrite Hm, Hp. by repeat split.
Qed.

Lemma loadMap_precedence_witness :
  log (loadMap Sample.lobby Boot.app)
  = [MapLoader_load 1 "/home/me/test.xml"].
Proof.
  destruct (loadMap_precedence Sample.lobby Boot.app)
    as (_ & path & Hlog & _ & Hpath & _).
  rewrite Hlog, (Hpath eq_refl); [reflexivity | discriminate].
Defined.
